(** * weaviate-box-recipe: the ingestion cells of [weaviate_box.ipynb]

    A shallow embedding of the four functions of the notebook's "Step 6"
    cell ([clean_up_text], [get_file_text_content], [chunk_text],
    [extract_text_and_generate_embeddings]) and of the two of its "Step 5"
    cell ([is_supported_file_type], [get_files_in_folder]), and the
    properties of the ingestion pipeline stated over them.

    Conventions.
    - A Python [str] is a list of Unicode code points ([str := list char],
      [char := N]); identifiers, URLs and messages printed by the notebook
      are plain [string]s.
    - Python [int]s are [Z].
    - The [while] loop of [chunk_text] need not terminate; it is run with
      fuel, [None] meaning that the fuel ran out before the loop condition
      became false. *)

From Stdlib Require Import ZArith NArith Bool Lia ZifyBool Ascii String List.
From stdpp Require Import base tactics option list strings pretty.

Open Scope Z_scope.

(** ** Python strings *)

Abbreviation char := N.
Abbreviation str := (list N).

(** The code points of an ASCII literal. *)
Definition of_string (s : string) : str :=
  List.map N_of_ascii (list_ascii_of_string s).

(** [len(text)] *)
Definition len {A} (l : list A) : Z := Z.of_nat (length l).

(** Index adjustment of a slice bound (CPython's [PySlice_AdjustIndices]
    for step 1): a negative bound counts from the end, and both bounds are
    clamped to [0 .. n]. *)
Definition adjust_index (n i : Z) : Z :=
  if i <? 0 then Z.max (i + n) 0 else Z.min i n.

(** [l[start:stop]] *)
Definition py_slice {A} (l : list A) (start stop : Z) : list A :=
  let a := adjust_index (len l) start in
  let b := adjust_index (len l) stop in
  take (Z.to_nat (b - a)) (drop (Z.to_nat a) l).

(** ** Regular expressions, as [re.sub] runs them *)

Definition between (lo hi c : N) : bool := ((lo <=? c) && (c <=? hi))%N.

(** [\s]: the characters for which [str.isspace] holds. *)
Definition is_space (c : N) : bool :=
  (between 9 13 c || between 28 32 c || (c =? 133) || (c =? 160) ||
   (c =? 5760) || between 8192 8202 c || (c =? 8232) || (c =? 8233) ||
   (c =? 8239) || (c =? 8287) || (c =? 12288))%N.

(** The alphanumeric and decimal-digit tables of the Unicode character
    database behind [str.isalnum] and [str.isdecimal], consulted for the
    code points from 128 on (the ASCII part is written out below). The one
    fact about the tables that is used: no alphanumeric character is
    white space. *)
Class UnicodeData := {
  isalnum : N -> bool;
  isdecimal : N -> bool;
  isalnum_not_space : forall c, isalnum c = true -> is_space c = false;
}.

Module Re.

Local Open Scope N_scope.

Section Classes.
Context {U : UnicodeData}.

(** [\w]: alphanumeric or underscore. *)
Definition is_word (c : N) : bool :=
  if c <? 128
  then between 48 57 c || between 65 90 c || between 97 122 c || (c =? 95)
  else isalnum c.

(** [\d] *)
Definition is_digit (c : N) : bool :=
  if c <? 128 then between 48 57 c else isdecimal c.

(** [[\dA-Fa-f]] *)
Definition is_hex (c : N) : bool :=
  is_digit c || between 65 70 c || between 97 102 c.

End Classes.

(** A pattern is a sequence of atoms: a character class with a
    quantifier. The patterns of [clean_up_text] need nothing else, and
    each of their groups encloses exactly one atom. *)
Inductive quant := One | Star | Plus | Exactly (n : nat).
Record atom := Atom { cls : N -> bool; qnt : quant }.

(** A greedy repetition followed by the continuation [k]: the longest run
    is tried first, then the engine backtracks one character at a time. *)
Fixpoint greedy {R} (p : N -> bool) (k : str -> str -> option R)
    (acc s : str) : option R :=
  match s with
  | c :: s' =>
      if p c then
        match greedy p k (acc ++ [c]) s' with
        | Some r => Some r
        | None => k acc s
        end
      else k acc s
  | [] => k acc s
  end.

Fixpoint exactly (n : nat) (p : N -> bool) (s : str) : option (str * str) :=
  match n with
  | O => Some ([], s)
  | S n' =>
      match s with
      | c :: s' =>
          if p c then
            match exactly n' p s' with
            | Some (m, r) => Some (c :: m, r)
            | None => None
            end
          else None
      | [] => None
      end
  end.

(** Match the pattern at the start of [s]: what each atom matched, and
    what follows the match. *)
Fixpoint match_here (re : list atom) (s : str) : option (list str * str) :=
  match re with
  | [] => Some ([], s)
  | a :: re' =>
      let k := fun (m rest : str) =>
        match match_here re' rest with
        | Some (caps, r) => Some (m :: caps, r)
        | None => None
        end in
      match qnt a with
      | One =>
          match s with
          | c :: s' => if cls a c then k [c] s' else None
          | [] => None
          end
      | Star => greedy (cls a) k [] s
      | Plus =>
          match s with
          | c :: s' => if cls a c then greedy (cls a) k [c] s' else None
          | [] => None
          end
      | Exactly n =>
          match exactly n (cls a) s with
          | Some (m, rest) => k m rest
          | None => None
          end
      end
  end.

(** The scan of [re.sub]: leftmost match first, then on from the end of
    the match. None of the patterns here matches the empty string, so a
    step consumes at least one character and [length s] steps are enough
    (lemma [sub_scan_fuel]). *)
Fixpoint sub_scan (fuel : nat) (re : list atom) (repl : list str -> str)
    (s : str) : str :=
  match fuel with
  | O => s
  | S fuel' =>
      match s with
      | [] => []
      | c :: s' =>
          match match_here re s with
          | Some (caps, rest) => repl caps ++ sub_scan fuel' re repl rest
          | None => c :: sub_scan fuel' re repl s'
          end
      end
  end.

(** [re.sub(pattern, repl, s)] *)
Definition sub (re : list atom) (repl : list str -> str) (s : str) : str :=
  sub_scan (length s) re repl s.

(** [re.search(pattern, s) is not None] *)
Fixpoint search (re : list atom) (s : str) : bool :=
  match match_here re s with
  | Some _ => true
  | None => match s with [] => false | _ :: s' => search re s' end
  end.

(** A literal character and a literal string. *)
Definition chr (c : N) : atom := Atom (N.eqb c) One.
Definition lit (s : str) : list atom := List.map chr s.

(** What the [n]-th atom matched. *)
Definition cap (n : nat) (caps : list str) : str := nth n caps [].

(** *** Notions used to state what a match and a scan do *)

(** The longest prefix of characters of a class, and what follows it. *)
Fixpoint takew (p : N -> bool) (s : str) : str :=
  match s with
  | c :: s' => if p c then c :: takew p s' else []
  | [] => []
  end.

Fixpoint dropw (p : N -> bool) (s : str) : str :=
  match s with
  | c :: s' => if p c then dropw p s' else s
  | [] => []
  end.

(** What an atom may have matched. *)
Definition atom_match (a : atom) (m : str) : Prop :=
  Forall (fun c => cls a c = true) m /\
  match qnt a with
  | One => length m = 1%nat
  | Star => True
  | Plus => (1 <= length m)%nat
  | Exactly n => length m = n
  end.

(** A pattern that never matches the empty string. *)
Definition consuming (re : list atom) : Prop :=
  forall s caps rest,
    match_here re s = Some (caps, rest) -> (length rest < length s)%nat.

End Re.

(** ** clean_up_text *)

Section Normalizer.
Context {U : UnicodeData}.

Local Open Scope N_scope.

Definition hyphen : N := 45.
Definition line_feed : N := 10.
Definition space : N := 32.
Definition em_dash : N := 8212.
Definition backslash : N := 92.

(** [r'(\w+)-\n(\w+)']; group 1 is atom 0, group 2 is atom 3. *)
Definition hyphen_break : list Re.atom :=
  [Re.Atom Re.is_word Re.Plus; Re.chr hyphen; Re.chr line_feed;
   Re.Atom Re.is_word Re.Plus].

(** The list [unwanted_patterns]. The first entry is the two-character
    string backslash, n: as a pattern it matches a line feed. *)
Definition unwanted_patterns : list (list Re.atom) :=
  [ [Re.chr line_feed];
    Re.lit [space; space; em_dash];
    Re.lit (repeat em_dash 10);
    Re.lit (repeat em_dash 9);
    Re.lit (repeat em_dash 5);
    [Re.chr backslash; Re.chr 117; Re.Atom Re.is_hex (Re.Exactly 4)];
    [Re.chr 61557];
    [Re.chr 61623] ].

(** [r'(\w)\s*-\s*(\w)']; group 1 is atom 0, group 2 is atom 4. *)
Definition spaced_hyphen : list Re.atom :=
  [Re.Atom Re.is_word Re.One; Re.Atom is_space Re.Star; Re.chr hyphen;
   Re.Atom is_space Re.Star; Re.Atom Re.is_word Re.One].

(** [r'\s+'] *)
Definition whitespace_run : list Re.atom := [Re.Atom is_space Re.Plus].

(** The loop [for pattern in unwanted_patterns: content = re.sub(pattern, "", content)]. *)
Definition strip_unwanted (content : str) : str :=
  fold_left (fun content pattern => Re.sub pattern (fun _ => []) content)
    unwanted_patterns content.

Definition clean_up_text (content : str) : str :=
  let content :=
    Re.sub hyphen_break (fun caps => Re.cap 0 caps ++ Re.cap 3 caps) content in
  let content := strip_unwanted content in
  let content :=
    Re.sub spaced_hyphen
      (fun caps => Re.cap 0 caps ++ [hyphen] ++ Re.cap 4 caps) content in
  let content := Re.sub whitespace_run (fun _ => [space]) content in
  content.

(** The replacement [r'\1-\2'] of the third pass. *)
Definition tight (caps : list str) : str :=
  Re.cap 0 caps ++ [hyphen] ++ Re.cap 4 caps.

(** The last two passes, by name. *)
Definition sub3 (s : str) : str := Re.sub spaced_hyphen tight s.
Definition sub4 (s : str) : str := Re.sub whitespace_run (fun _ => [space]) s.

(** [\s*-\s*] read off the start of [s]: what follows it. *)
Definition gap (s : str) : option str :=
  match Re.dropw is_space s with
  | h :: s3 => if N.eqb hyphen h then Some (Re.dropw is_space s3) else None
  | [] => None
  end.

(** [spaced_hyphen] read off the start of [s] without backtracking: the
    two word characters and what follows the match (lemma
    [match_spaced_hyphen] relates it to the engine). *)
Definition spaced_hyphen_at (s : str) : option (N * N * str) :=
  match s with
  | c :: s' =>
      if Re.is_word c then
        match gap s' with
        | Some (w :: rest) => if Re.is_word w then Some (c, w, rest) else None
        | _ => None
        end
      else None
  | [] => None
  end.

(** No unwanted pattern occurs in [s]. *)
Definition noise_free (s : str) : bool :=
  forallb (fun pattern => negb (Re.search pattern s)) unwanted_patterns.

End Normalizer.

(** The tables with no alphanumeric character beyond ASCII. *)
Definition ascii_only : UnicodeData :=
  {| isalnum := fun _ => false; isdecimal := fun _ => false;
     isalnum_not_space := fun c (H : false = true) =>
       match H in _ = b return (if b then is_space c = false else True) with
       | eq_refl => I
       end |}.

(** The text of twelve ASCII characters ["\u\u00410041"]: an escaped code point
    inside the pieces of another. The first pass strips the inner one and
    leaves ["\u0041"]; the second pass strips that. *)
Definition nested_escape : str := of_string "\u\u00410041".


(** ** The outside world *)

(** [str.replace(old, new)] for a non-empty [old]: leftmost occurrences,
    not overlapping. *)
Fixpoint strip_prefix (p s : string) : option string :=
  match p, s with
  | EmptyString, _ => Some s
  | String a p', String b s' => if Ascii.eqb a b then strip_prefix p' s' else None
  | String _ _, EmptyString => None
  end.

Fixpoint replace_scan (fuel : nat) (old new s : string) : string :=
  match fuel with
  | O => s
  | S fuel' =>
      match strip_prefix old s with
      | Some rest => new +:+ replace_scan fuel' old new rest
      | None =>
          match s with
          | EmptyString => EmptyString
          | String c s' => String c (replace_scan fuel' old new s')
          end
      end
  end.

Definition replace (old new s : string) : string :=
  replace_scan (String.length s) old new s.

(** The exceptions that occur; all of them derive from [Exception]. The
    argument is what [str(e)] gives. *)
Inductive exn :=
  | ValueError (msg : string)
  | TypeError (msg : string)
  | AttributeError (msg : string)
  | HTTPError (msg : string)
  | ServiceError (msg : string).

Definition exn_str (e : exn) : string :=
  match e with
  | ValueError msg | TypeError msg | AttributeError msg | HTTPError msg
  | ServiceError msg => msg
  end.

(** An entry of [file.representations.entries]: [rep.representation],
    [rep.status.state] and [rep.content.url_template] ([None] when the
    entry carries no content). *)
Record Representation := {
  representation : string;
  status_state : string;
  url_template : option string;
}.

(** [file.representations] is [None] or an object whose [entries] is
    [None] or a list. *)
Record FileFull := {
  id : string;
  name : string;
  created_at : string;
  representations : option (option (list Representation));
}.

(** What [requests.get] returns. *)
Record Response := {
  status_code : Z;
  reason : string;
  url : string;
  text : str;
}.

(** The two services the fetcher talks to. Their answer may change from
    one call to the next: it is a function of the calls made before and of
    the request.
    - [get_file_by_id k file_id]: the answer of
      [special_client.files.get_file_by_id(file_id, fields=["representations"])]
      to the lookup that follows [k] earlier lookups;
    - [requests_get k urls url]: the answer of [requests.get(url)] after
      [k] lookups and the downloads of [urls];
    - [token]: [box_client.auth.token]. *)
Record Services := {
  get_file_by_id : nat -> string -> exn + FileFull;
  requests_get : nat -> list string -> string -> exn + Response;
  token : string;
}.

(** A chunk record, the dictionary the pipeline yields. *)
Record ChunkRecord := {
  file_id : string;
  file_name : string;
  chunk_index : Z;
  content : str;
  created_date : string;
}.

(** What a run has done so far. *)
Record World := {
  lookups : nat;              (* calls of get_file_by_id *)
  downloads : list string;    (* URLs passed to requests.get *)
  stdout : list string;       (* lines printed *)
  yielded : list ChunkRecord; (* records yielded by the generator *)
}.

Definition world0 : World :=
  {| lookups := 0; downloads := []; stdout := []; yielded := [] |}.

(** How a piece of code ends: it returns, raises, or never ends. *)
Inductive outcome (A : Type) :=
  | Returns (a : A)
  | Raises (e : exn)
  | Hangs.
Arguments Returns {A} a.
Arguments Raises {A} e.
Arguments Hangs {A}.

Definition M (A : Type) : Type := World -> outcome A * World.

Definition ret {A} (a : A) : M A := fun w => (Returns a, w).
Definition raise {A} (e : exn) : M A := fun w => (Raises e, w).
Definition hang {A} : M A := fun w => (Hangs, w).

Definition bind {A B} (m : M A) (k : A -> M B) : M B :=
  fun w =>
    match m w with
    | (Returns a, w') => k a w'
    | (Raises e, w') => (Raises e, w')
    | (Hangs, w') => (Hangs, w')
    end.

Global Instance M_ret : MRet M := @ret.
Global Instance M_bind : MBind M := fun A B k m => bind m k.

(** [try: body except Exception as e: handler(e)] *)
Definition try_except {A} (body : M A) (handler : exn -> M A) : M A :=
  fun w =>
    match body w with
    | (Raises e, w') => handler e w'
    | r => r
    end.

Definition print (line : string) : M unit :=
  fun w =>
    (Returns tt,
     {| lookups := lookups w; downloads := downloads w;
        stdout := stdout w ++ [line]; yielded := yielded w |}).

Definition yield_ (r : ChunkRecord) : M unit :=
  fun w =>
    (Returns tt,
     {| lookups := lookups w; downloads := downloads w;
        stdout := stdout w; yielded := yielded w ++ [r] |}).

Definition of_sum {A} (r : exn + A) : outcome A :=
  match r with inl e => Raises e | inr a => Returns a end.

(** ** get_file_text_content *)

Section Fetcher.
Context {U : UnicodeData} (svc : Services).

Definition call_get_file_by_id (file_id : string) : M FileFull :=
  fun w =>
    (of_sum (get_file_by_id svc (lookups w) file_id),
     {| lookups := S (lookups w); downloads := downloads w;
        stdout := stdout w; yielded := yielded w |}).

Definition call_requests_get (download_url : string) : M Response :=
  fun w =>
    (of_sum (requests_get svc (lookups w) (downloads w) download_url),
     {| lookups := lookups w; downloads := downloads w ++ [download_url];
        stdout := stdout w; yielded := yielded w |}).

(** [response.raise_for_status()] *)
Definition raise_for_status (response : Response) : M unit :=
  let code := status_code response in
  if (400 <=? code) && (code <? 500) then
    raise (HTTPError (pretty code +:+ " Client Error: " +:+ reason response
                      +:+ " for url: " +:+ url response))
  else if (500 <=? code) && (code <? 600) then
    raise (HTTPError (pretty code +:+ " Server Error: " +:+ reason response
                      +:+ " for url: " +:+ url response))
  else mret tt.

(** The body of [for rep in file.representations.entries]. Both branches
    leave the function, so only the first entry is ever looked at: the
    result is what the function returns. *)
Definition visit_representation (file : FileFull) (rep : Representation)
  : M str :=
  if String.eqb (representation rep) "extracted_text" then
    match url_template rep with
    | None =>
        raise (AttributeError "'NoneType' object has no attribute 'url_template'")
    | Some template =>
        let download_url :=
          replace "{+asset_path}" "" template +:+ "?access_token=" +:+ token svc in
        response ← call_requests_get download_url;
        raise_for_status response;;
        mret (clean_up_text (text response))
    end
  else
    print ("Text representation not ready for file " +:+ id file);;
    raise (ValueError ("Text representation not ready for file " +:+ id file)).

(** [file.representations and file.representations.entries], and then the
    first entry, if there is one. *)
Definition first_entry (file : FileFull) : option Representation :=
  match representations file with
  | Some (Some (rep :: _)) => Some rep
  | _ => None
  end.

(** The iterations of [for attempt in range(max_retries)] from [attempt]
    on, [remaining] of them. [None] is Python's [None], returned when the
    loop runs out. *)
Fixpoint attempts (remaining : nat) (attempt : Z) (file : FileFull)
    (max_retries : Z) : M (option str) :=
  match remaining with
  | O => mret None
  | S remaining' =>
      file ← call_get_file_by_id (id file);
      match first_entry file with
      | Some rep =>
          text ← visit_representation file rep;
          mret (Some text)
      | None =>
          if attempt =? max_retries - 1 then
            raise (ValueError ("Text representation not ready for " +:+ name file
                               +:+ " after " +:+ pretty max_retries
                               +:+ " attempts."))
          else attempts remaining' (attempt + 1) file max_retries
      end
  end.

Definition get_file_text_content (file : FileFull) (max_retries delay : Z)
  : M (option str) :=
  attempts (Z.to_nat max_retries) 0 file max_retries.

End Fetcher.

(** ** chunk_text *)

Module Chunker.

(** The two variables the loop updates. *)
Record loop_state := LoopState { start : Z; chunks : list str }.

(** One execution of the body of [while start < len(text)]:
<<
        end = start + chunk_size
        chunk = text[start:end]
        chunks.append(chunk)
        start = end - overlap
>> *)
Definition loop_body (text : str) (chunk_size overlap : Z) (st : loop_state)
  : loop_state :=
  let end_ := start st + chunk_size in
  let chunk := py_slice text (start st) end_ in
  {| start := end_ - overlap; chunks := chunks st ++ [chunk] |}.

(** The [while] loop: the condition is tested first; a body execution
    costs one unit of fuel. *)
Fixpoint while_loop (fuel : nat) (text : str) (chunk_size overlap : Z)
    (st : loop_state) {struct fuel} : option (list str) :=
  if start st <? len text then
    match fuel with
    | O => None
    | S fuel' =>
        while_loop fuel' text chunk_size overlap
          (loop_body text chunk_size overlap st)
    end
  else Some (chunks st).

Definition chunk_text_fuel (fuel : nat) (text : str) (chunk_size overlap : Z)
  : option (list str) :=
  while_loop fuel text chunk_size overlap {| start := 0; chunks := [] |}.

(** [chunk_text text chunk_size overlap] returns [r]. *)
Definition returns (text : str) (chunk_size overlap : Z) (r : list str) : Prop :=
  exists fuel, chunk_text_fuel fuel text chunk_size overlap = Some r.

(** [chunk_text text chunk_size overlap] never leaves its loop. *)
Definition diverges (text : str) (chunk_size overlap : Z) : Prop :=
  forall fuel, chunk_text_fuel fuel text chunk_size overlap = None.

(** The executable [chunk_text]: a terminating run on a text of [n]
    characters executes the body at most [n] times (lemma
    [returns_chunk_text]). *)
Definition chunk_text (text : str) (chunk_size overlap : Z)
  : option (list str) :=
  chunk_text_fuel (length text) text chunk_size overlap.

(** *** The specification's windows *)

(** The characters of [text] at the positions of [[s, s + chunk_size)]
    that exist, for [0 <= s]. *)
Definition window (text : str) (s chunk_size : Z) : str :=
  take (Z.to_nat chunk_size) (drop (Z.to_nat s) text).

(** [start_i = i * (chunk_size - overlap)] *)
Definition start_of (chunk_size overlap : Z) (i : nat) : Z :=
  Z.of_nat i * (chunk_size - overlap).

(** The first [n] windows from position [s] on, [step] apart. *)
Fixpoint windows (n : nat) (text : str) (s chunk_size step : Z) : list str :=
  match n with
  | O => []
  | S n' => window text s chunk_size :: windows n' text (s + step) chunk_size step
  end.

(** How many window starts [s, s + step, ...] lie before the end of a text
    of [n] characters. *)
Definition count_from (n s step : Z) : nat :=
  Z.to_nat ((n - s + step - 1) / step).

Definition last_char (t : str) : option char := last t.

(** The last character of the final chunk. *)
Definition final_char (cs : list str) : option char :=
  match last cs with Some c => last_char c | None => None end.

Definition total_length (cs : list str) : Z :=
  fold_right (fun c acc => len c + acc) 0 cs.

(** The last [n] and the first [n] characters of a chunk. *)
Definition last_n (n : Z) (c : str) : str := drop (length c - Z.to_nat n)%nat c.
Definition first_n (n : Z) (c : str) : str := take (Z.to_nat n) c.

End Chunker.

Import Chunker.

(** ** extract_text_and_generate_embeddings *)

Section Pipeline.
Context {U : UnicodeData} (svc : Services).

(** [chunk_text(text, chunk_size=4000, overlap=200)] on what
    [get_file_text_content] returned; [len(None)] raises. *)
Definition call_chunk_text (text : option str) (chunk_size overlap : Z)
  : M (list str) :=
  match text with
  | None => raise (TypeError "object of type 'NoneType' has no len()")
  | Some text =>
      match chunk_text text chunk_size overlap with
      | Some chunks => mret chunks
      | None => hang
      end
  end.

(** [for i, chunk in enumerate(chunks): yield {...}], from index [i] on. *)
Fixpoint yield_chunks (file : FileFull) (i : Z) (chunks : list str) : M unit :=
  match chunks with
  | [] => mret tt
  | chunk :: rest =>
      yield_ {| file_id := id file; file_name := name file; chunk_index := i;
                content := chunk; created_date := created_at file |};;
      yield_chunks file (i + 1) rest
  end.

(** The body of [for file in files]. *)
Definition process_file (file : FileFull) : M unit :=
  try_except
    (text ← get_file_text_content svc file 5 5;
     chunks ← call_chunk_text text 4000 200;
     yield_chunks file 0 chunks)
    (fun e => print ("Error processing " +:+ name file +:+ ": " +:+ exn_str e)).

(** The generator, run to its end as [list(...)] does. *)
Fixpoint extract_text_and_generate_embeddings (files : list FileFull) : M unit :=
  match files with
  | [] => mret tt
  | file :: rest =>
      process_file file;; extract_text_and_generate_embeddings rest
  end.

(** *** What the pipeline is expected to do with each document *)

(** The records of a document whose text is [text]: one per chunk, indexed
    from 0. *)
Definition records_from (file : FileFull) (i : Z) (chunks : list str)
  : list ChunkRecord :=
  imap (fun k chunk =>
          {| file_id := id file; file_name := name file;
             chunk_index := i + Z.of_nat k;
             content := chunk; created_date := created_at file |}) chunks.

(** The outcome of the fetch of each document, at the moment the run
    reaches it. *)
Fixpoint fetch_outcomes (files : list FileFull) (w : World)
  : list (FileFull * outcome (option str)) :=
  match files with
  | [] => []
  | file :: rest =>
      (file, fst (get_file_text_content svc file 5 5 w))
        :: fetch_outcomes rest (snd (process_file file w))
  end.

(** The records a document contributes: all of them when its text was
    fetched, none otherwise. *)
Definition records_of (d : FileFull * outcome (option str)) : list ChunkRecord :=
  match d with
  | (file, Returns (Some text)) =>
      match chunk_text text 4000 200 with
      | Some chunks => records_from file 0 chunks
      | None => []
      end
  | _ => []
  end.

(** Whether the document failed. *)
Definition failed (d : FileFull * outcome (option str)) : bool :=
  match d with
  | (_, Returns (Some _)) => false
  | _ => true
  end.

(** The failure the pipeline logs for a document: one line for a failed
    document, none otherwise. *)
Definition failure_of (d : FileFull * outcome (option str)) : list string :=
  match d with
  | (file, Raises e) =>
      ["Error processing " +:+ name file +:+ ": " +:+ exn_str e]
  | (file, Returns None) =>
      ["Error processing " +:+ name file
       +:+ ": object of type 'NoneType' has no len()"]
  | _ => []
  end.

(** The failure lines of the pipeline among the printed lines. *)
Definition is_failure_line (line : string) : bool :=
  String.prefix "Error processing " line.

Definition failure_lines (out : list string) : list string :=
  List.filter is_failure_line out.

End Pipeline.

(** What a part of the fetcher leaves untouched: it yields nothing, prints
    no failure line of the pipeline, and it ends. *)
Definition quiet {A} (m : M A) : Prop :=
  forall w r w', m w = (r, w') ->
    yielded w' = yielded w /\
    failure_lines (stdout w') = failure_lines (stdout w) /\
    r <> Hangs.


(** ** Document sources used in the examples *)

Module Scenario.

(** A document as the folder listing gives it. *)
Definition doc (file_id : string) : FileFull :=
  {| id := file_id; name := "doc" +:+ file_id +:+ ".pdf";
     created_at := "2024-05-01T09:00:00-07:00"; representations := None |}.

Definition with_entries (file : FileFull) (entries : list Representation)
  : FileFull :=
  {| id := id file; name := name file; created_at := created_at file;
     representations := Some (Some entries) |}.

(** The [extracted_text] entry of a document, in the given state. *)
Definition text_rep (file_id state : string) : Representation :=
  {| representation := "extracted_text"; status_state := state;
     url_template :=
       Some ("https://dl.boxcloud.com/api/2.0/internal_files/" +:+ file_id
             +:+ "/versions/1/representations/extracted_text/content/{+asset_path}") |}.

Definition download_url (file_id : string) : string :=
  "https://dl.boxcloud.com/api/2.0/internal_files/" +:+ file_id
  +:+ "/versions/1/representations/extracted_text/content/?access_token=TOKEN".

Definition ok (u : string) (body : str) : Response :=
  {| status_code := 200; reason := "OK"; url := u; text := body |}.

Definition accepted (u : string) : Response :=
  {| status_code := 202; reason := "Accepted"; url := u; text := [] |}.

(** The representation is listed from the first lookup on, in state
    [pending] for the first [n] lookups and in state [success] after
    them. A download asked for before the [n+1]-st lookup is answered with
    202 and no body, a later one with the text. *)
Definition pending_then_ready (n : nat) (body : str) : Services :=
  {| get_file_by_id k file_id :=
       inr (with_entries (doc file_id)
              [text_rep file_id (if (k <? n)%nat then "pending" else "success")]);
     requests_get k _ u := inr (if (k <=? n)%nat then accepted u else ok u body);
     token := "TOKEN" |}.

(** The representation list is empty for the first [n] lookups and holds
    the ready [extracted_text] entry after them. *)
Definition empty_then_ready (n : nat) (body : str) : Services :=
  {| get_file_by_id k file_id :=
       inr (with_entries (doc file_id)
              (if (k <? n)%nat then [] else [text_rep file_id "success"]));
     requests_get _ _ u := inr (ok u body);
     token := "TOKEN" |}.

(** The representation list is empty at every lookup. *)
Definition always_empty : Services :=
  {| get_file_by_id _ file_id := inr (with_entries (doc file_id) []);
     requests_get _ _ u := inr (ok u []);
     token := "TOKEN" |}.

(** The first entry is a representation of another kind. *)
Definition other_kind_first (body : str) : Services :=
  {| get_file_by_id k file_id :=
       inr (with_entries (doc file_id)
              (if (k <? 1)%nat
               then [{| representation := "jpg_thumb_32x32";
                        status_state := "success"; url_template := None |}]
               else [text_rep file_id "success"]));
     requests_get _ _ u := inr (ok u body);
     token := "TOKEN" |}.

(** Three documents: the text of ["1"] and ["3"] is ready at once, the
    representation list of ["2"] stays empty. *)
Definition second_never_ready : Services :=
  {| get_file_by_id _ file_id :=
       inr (with_entries (doc file_id)
              (if String.eqb file_id "2" then []
               else [text_rep file_id "success"]));
     requests_get _ _ u :=
       inr (ok u (if String.eqb u (download_url "1")
                  then of_string "first  text" else of_string "third-
text"));
     token := "TOKEN" |}.

End Scenario.

(** ** get_files_in_folder *)

(** [s.endswith(suffix)]: the last [len(suffix)] characters of [s] are
    compared with [suffix]. *)
Definition endswith (s suffix : string) : bool :=
  (String.length suffix <=? String.length s)%nat &&
  String.eqb
    (String.substring (String.length s - String.length suffix)
       (String.length suffix) s)
    suffix.

(** The set [SUPPORTED_TEXT_FILE_TYPES]; [any] does not depend on the
    order in which it is enumerated. *)
Definition SUPPORTED_TEXT_FILE_TYPES : list string :=
  [".doc"; ".docx"; ".pdf"; ".txt"; ".html"; ".md"; ".json"; ".xml";
   ".ppt"; ".pptx"; ".key"; ".xls"; ".xlsx"; ".csv"].

Definition is_supported_file_type (file_name : string) : bool :=
  existsb (endswith file_name) SUPPORTED_TEXT_FILE_TYPES.

(** An entry of a folder listing: [item.type], [item.name], [item.id]. *)
Record Item := {
  item_type : string;
  item_name : string;
  item_id : string;
}.

(** The Box client as [get_files_in_folder] uses it:
    - [folders_get_folder_items folder_id]: the answer of
      [client.folders.get_folder_items(folder_id)], an object whose
      [entries] is [None] or a list;
    - [files_get_file_by_id k file_id]: the answer of
      [client.files.get_file_by_id(file_id)] to the lookup that follows
      [k] earlier lookups. *)
Record Client := {
  folders_get_folder_items : string -> exn + option (list Item);
  files_get_file_by_id : nat -> string -> exn + FileFull;
}.

Section Listing.
Context (client : Client).

Definition call_get_folder_items (folder_id : string)
  : M (option (list Item)) :=
  fun w => (of_sum (folders_get_folder_items client folder_id), w).

Definition call_files_get_file_by_id (file_id : string) : M FileFull :=
  fun w =>
    (of_sum (files_get_file_by_id client (lookups w) file_id),
     {| lookups := S (lookups w); downloads := downloads w;
        stdout := stdout w; yielded := yielded w |}).

(** [item.type == 'file' and is_supported_file_type(item.name)] *)
Definition selected (item : Item) : bool :=
  String.eqb (item_type item) "file" && is_supported_file_type (item_name item).

(** The loop [for item in items.entries], from the list [file_objects]
    collected so far. *)
Fixpoint collect (entries : list Item) (file_objects : list FileFull)
  : M (list FileFull) :=
  match entries with
  | [] => mret file_objects
  | item :: rest =>
      if selected item then
        file ← call_files_get_file_by_id (item_id item);
        collect rest (file_objects ++ [file])
      else collect rest file_objects
  end.

Definition get_files_in_folder (folder_id : string) : M (list FileFull) :=
  items ← call_get_folder_items folder_id;
  match items with
  | None => raise (TypeError "'NoneType' object is not iterable")
  | Some entries => collect entries []
  end.

End Listing.

(** An ASCII lower-case letter occurs in the name. *)
Definition is_lower_case (c : ascii) : bool :=
  (97 <=? nat_of_ascii c)%nat && (nat_of_ascii c <=? 122)%nat.

Fixpoint has_lower_case (s : string) : bool :=
  match s with
  | EmptyString => false
  | String c s' => is_lower_case c || has_lower_case s'
  end.

(** A folder with a sub-folder and three files, one of them of a type
    that is not supported; the lookup of file ["13"] fails. *)
Definition example_client : Client :=
  {| folders_get_folder_items _ :=
       inr (Some [ {| item_type := "folder"; item_name := "old.pdf"; item_id := "10" |};
                   {| item_type := "file"; item_name := "a.pdf"; item_id := "11" |};
                   {| item_type := "file"; item_name := "b.png"; item_id := "12" |};
                   {| item_type := "file"; item_name := "c.txt"; item_id := "13" |} ]);
     files_get_file_by_id _ file_id :=
       if String.eqb file_id "13" then inl (ServiceError "404 Not Found")
       else inr (Scenario.doc file_id) |}.

(** ** Notions used to state further properties *)

(** A text in which white space occurs only as single space characters. *)
Definition single_spaced (s : str) : Prop :=
  (forall x, In x s -> is_space x = true -> x = space) /\
  (forall i : nat, s !! i = Some space -> s !! S i <> Some space).

(** The characters that occur literally in the unwanted patterns, the
    line feed apart: em dash, backslash and the two private-use glyphs. *)
Definition noise_characters : list N := [em_dash; backslash; 61557%N; 61623%N].

(** [s] without its line feeds. *)
Definition without_line_feeds (s : str) : str :=
  List.filter (fun c => negb (N.eqb line_feed c)) s.

(** The first pass of [clean_up_text], by name. *)
Definition sub1 {U : UnicodeData} (s : str) : str :=
  Re.sub hyphen_break (fun caps => Re.cap 0 caps ++ Re.cap 3 caps) s.

(** Characters and texts outside the reach of the unwanted patterns. *)
Definition is_noise_character (c : N) : bool := existsb (N.eqb c) noise_characters.

Definition no_noise_characters (s : str) : bool :=
  forallb (fun c => negb (is_noise_character c)) s.

(** Neither a hyphen nor one of the noise characters. *)
Definition ordinary_character (c : N) : bool :=
  negb (N.eqb c hyphen) && negb (is_noise_character c).

(** ... nor white space. *)
Definition plain_character (c : N) : bool :=
  ordinary_character c && negb (is_space c).

(** A word character ([\w]) that is not a noise character. *)
Definition word_character {U : UnicodeData} (c : N) : bool :=
  Re.is_word c && negb (is_noise_character c).

(** * Properties *)

(** ** The chunker *)

Section ChunkerFacts.

Implicit Types (text : str) (cs ov step s : Z) (st : loop_state).

Lemma py_slice_window text s cs :
  0 <= s < len text -> 0 <= cs ->
  py_slice text s (s + cs) = window text s cs.
Proof.
  intros Hs Hcs. unfold py_slice, window, adjust_index, len in *.
  destruct (Z.ltb_spec s 0); [lia|].
  destruct (Z.ltb_spec (s + cs) 0); [lia|].
  rewrite (Z.min_l s) by lia.
  destruct (Z.le_ge_cases (s + cs) (Z.of_nat (length text))) as [Hle|Hge].
  - rewrite Z.min_l by lia. f_equal. lia.
  - rewrite Z.min_r by lia.
    rewrite !take_ge; [done| |]; rewrite length_drop; lia.
Qed.

(** *** Fuel *)

Lemma while_loop_mono fuel fuel' text cs ov st r :
  while_loop fuel text cs ov st = Some r -> (fuel <= fuel')%nat ->
  while_loop fuel' text cs ov st = Some r.
Proof.
  revert fuel' st.
  induction fuel as [|fuel IH]; intros fuel' st H Hle.
  - destruct fuel'; simpl in *; destruct (start st <? len text); congruence.
  - destruct fuel' as [|fuel']; [lia|]. simpl in *.
    destruct (start st <? len text); [|done].
    apply IH; [done|lia].
Qed.

Lemma while_loop_terminates fuel text cs ov st :
  ov < cs -> len text - start st <= Z.of_nat fuel ->
  exists r, while_loop fuel text cs ov st = Some r.
Proof.
  intros Hstep. revert st.
  induction fuel as [|fuel IH]; intros st Hfuel; simpl.
  - destruct (Z.ltb_spec (start st) (len text)); [lia|eauto].
  - destruct (Z.ltb_spec (start st) (len text)); [|eauto].
    apply IH. simpl. lia.
Qed.

Lemma while_loop_diverges fuel text cs ov st :
  cs <= ov -> start st < len text ->
  while_loop fuel text cs ov st = None.
Proof.
  intros Hstep. revert st.
  induction fuel as [|fuel IH]; intros st Hlt; simpl;
    destruct (Z.ltb_spec (start st) (len text)); try lia; [done|].
  apply IH. simpl. lia.
Qed.

Lemma chunk_text_fuel_nil fuel cs ov : chunk_text_fuel fuel [] cs ov = Some [].
Proof. by destruct fuel. Qed.

(** A run that leaves the loop does so within [len(text)] iterations, so
    [chunk_text] is the function the notebook defines wherever that one
    returns. *)
Lemma returns_chunk_text text cs ov r :
  returns text cs ov r <-> chunk_text text cs ov = Some r.
Proof.
  split; [|intros H; by exists (length text)].
  intros [fuel Hfuel]. unfold chunk_text.
  destruct (Z.lt_ge_cases ov cs) as [Hlt|Hge].
  - destruct (while_loop_terminates (length text) text cs ov
                {| start := 0; chunks := [] |} Hlt) as [r' Hr'].
    { simpl. unfold len. lia. }
    unfold chunk_text_fuel in *. rewrite Hr'. f_equal.
    pose proof (while_loop_mono _ (fuel `max` length text) _ _ _ _ _ Hfuel
                  ltac:(lia)) as H1.
    pose proof (while_loop_mono _ (fuel `max` length text) _ _ _ _ _ Hr'
                  ltac:(lia)) as H2.
    congruence.
  - destruct text as [|c text].
    + rewrite chunk_text_fuel_nil in *. done.
    + unfold chunk_text_fuel in Hfuel.
      rewrite while_loop_diverges in Hfuel; [done|done|].
      simpl. unfold len. simpl. lia.
Qed.

(** *** The loop computes the windows *)

Lemma count_from_done n s step : 0 < step -> n <= s -> count_from n s step = O.
Proof.
  intros Hstep Hle. unfold count_from.
  assert ((n - s + step - 1) / step < 1); [|lia].
  apply Z.div_lt_upper_bound; lia.
Qed.

Lemma count_from_step n s step :
  0 < step -> s < n ->
  count_from n s step = S (count_from n (s + step) step).
Proof.
  intros Hstep Hlt. unfold count_from.
  replace (n - s + step - 1) with ((n - (s + step) + step - 1) + 1 * step) by lia.
  rewrite Z.div_add by lia.
  assert (0 <= (n - (s + step) + step - 1) / step)
    by (apply Z.div_pos; lia).
  lia.
Qed.

Lemma count_from_le n step :
  0 < step -> 0 <= n -> (count_from n 0 step <= Z.to_nat n)%nat.
Proof.
  intros Hstep Hn. unfold count_from.
  destruct (Z.eq_dec n 0) as [->|Hne].
  - rewrite Z.div_small; lia.
  - assert ((n - 0 + step - 1) / step < n + 1); [|lia].
    apply Z.div_lt_upper_bound; nia.
Qed.

Lemma while_loop_windows fuel text cs ov s acc :
  0 <= cs -> ov < cs -> 0 <= s ->
  (count_from (len text) s (cs - ov) <= fuel)%nat ->
  while_loop fuel text cs ov {| start := s; chunks := acc |} =
    Some (acc ++ windows (count_from (len text) s (cs - ov)) text s cs (cs - ov)).
Proof.
  intros Hcs Hstep. revert s acc.
  induction fuel as [|fuel IH]; intros s acc Hs Hfuel; simpl.
  - destruct (Z.ltb_spec s (len text)) as [Hlt|Hge].
    + rewrite count_from_step in Hfuel; lia.
    + rewrite count_from_done by lia. simpl. by rewrite app_nil_r.
  - destruct (Z.ltb_spec s (len text)) as [Hlt|Hge].
    + unfold loop_body. simpl.
      rewrite (count_from_step _ s) in * by lia. simpl.
      rewrite py_slice_window by lia.
      replace (s + cs - ov) with (s + (cs - ov)) by lia.
      rewrite IH by lia. by rewrite <- app_assoc.
    + rewrite count_from_done by lia. simpl. by rewrite app_nil_r.
Qed.

Lemma chunk_text_windows text cs ov :
  0 <= cs -> ov < cs ->
  chunk_text text cs ov =
    Some (windows (count_from (len text) 0 (cs - ov)) text 0 cs (cs - ov)).
Proof.
  intros Hcs Hstep. unfold chunk_text, chunk_text_fuel.
  rewrite while_loop_windows; [done..| |]; [lia|].
  pose proof (count_from_le (len text) (cs - ov)). unfold len in *. lia.
Qed.

(** *** Facts about windows *)

Lemma length_windows n text s cs step : length (windows n text s cs step) = n.
Proof. revert s. induction n; intros; simpl; congruence. Qed.

Lemma lookup_windows n text s cs step (i : nat) :
  (i < n)%nat ->
  windows n text s cs step !! i = Some (window text (s + Z.of_nat i * step) cs).
Proof.
  revert s i. induction n as [|n IH]; intros s i Hi; [lia|].
  destruct i as [|i]; simpl.
  - do 2 f_equal. lia.
  - rewrite IH by lia. do 2 f_equal. lia.
Qed.

Lemma count_from_lt n step (i : nat) :
  0 < step ->
  (i < count_from n 0 step)%nat <-> Z.of_nat i * step < n.
Proof.
  intros Hstep. unfold count_from.
  destruct (Z.le_gt_cases n 0) as [Hn|Hn].
  - assert ((n - 0 + step - 1) / step < 1) by (apply Z.div_lt_upper_bound; lia).
    split; [lia|nia].
  - assert (0 <= (n - 0 + step - 1) / step) by (apply Z.div_pos; lia).
    rewrite <- (Nat2Z.id i) at 1. rewrite <- Z2Nat.inj_lt by lia.
    split; intros H1.
    + assert (Z.of_nat i + 1 <= (n - 0 + step - 1) / step) as H2 by lia.
      pose proof (Z.mul_div_le (n - 0 + step - 1) step Hstep). nia.
    + destruct (Z.lt_ge_cases (Z.of_nat i) ((n - 0 + step - 1) / step)); [done|].
      assert ((n - 0 + step - 1) / step * step <= Z.of_nat i * step) by nia.
      pose proof (Z.mod_pos_bound (n - 0 + step - 1) step Hstep).
      pose proof (Z.div_mod (n - 0 + step - 1) step ltac:(lia)). nia.
Qed.

Lemma length_window text s cs :
  0 <= s -> 0 <= cs -> s <= len text ->
  len (window text s cs) = Z.min cs (len text - s).
Proof.
  intros. unfold window, len in *. rewrite length_take, length_drop. lia.
Qed.

Lemma lookup_window text s cs (j : nat) :
  (j < length (window text s cs))%nat ->
  window text s cs !! j = text !! (Z.to_nat s + j)%nat.
Proof.
  unfold window. rewrite length_take. intros Hj.
  rewrite lookup_take_lt by lia. by rewrite lookup_drop.
Qed.

Lemma last_drop {A} (l : list A) (n : nat) :
  (n < length l)%nat -> last (drop n l) = last l.
Proof.
  intros Hn. rewrite !last_lookup, lookup_drop, length_drop. f_equal. lia.
Qed.

Lemma window_to_end text s cs :
  0 <= s -> len text - s <= cs -> window text s cs = drop (Z.to_nat s) text.
Proof.
  intros Hs Hcs. unfold window. apply take_ge. rewrite length_drop.
  unfold len in *. lia.
Qed.

Lemma total_length_nonneg (r : list str) : 0 <= total_length r.
Proof. induction r; simpl; unfold len in *; lia. Qed.

(** With [0 < step <= cs] the windows leave no gap. *)
Lemma total_length_windows n text s cs step :
  0 < step <= cs -> 0 <= s -> n = count_from (len text) s step ->
  len text - s <= total_length (windows n text s cs step).
Proof.
  intros Hstep. revert s.
  induction n as [|n IH]; intros s Hs Hn.
  - destruct (Z.lt_ge_cases s (len text)); [|simpl; lia].
    rewrite count_from_step in Hn; lia.
  - destruct (Z.lt_ge_cases s (len text)) as [Hlt|Hge].
    2:{ rewrite count_from_done in Hn; lia. }
    rewrite count_from_step in Hn by lia. simpl.
    rewrite length_window by lia.
    destruct (Z.lt_ge_cases (s + step) (len text)).
    + specialize (IH (s + step)). lia.
    + pose proof (total_length_nonneg (windows n text (s + step) cs step)). lia.
Qed.

(** ... and the last of them ends where the text ends. *)
Lemma final_char_windows n text s cs step :
  0 < step <= cs -> 0 <= s < len text -> n = count_from (len text) s step ->
  final_char (windows n text s cs step) = last_char text.
Proof.
  intros Hstep. revert s.
  induction n as [|n IH]; intros s Hs Hn.
  - rewrite count_from_step in Hn; lia.
  - rewrite count_from_step in Hn by lia. simpl.
    destruct (Z.lt_ge_cases (s + step) (len text)) as [Hlt|Hge].
    + specialize (IH (s + step) ltac:(lia) ltac:(lia)).
      destruct n as [|n]; [rewrite count_from_step in Hn; lia|].
      simpl in *. unfold final_char in *. by rewrite last_cons_cons.
    + rewrite count_from_done in Hn by lia. injection Hn as ->. simpl.
      unfold final_char, last_char. simpl.
      rewrite window_to_end by lia. apply last_drop. unfold len in *. lia.
Qed.

Lemma concat_windows n text s cs :
  0 < cs -> 0 <= s -> n = count_from (len text) s cs ->
  concat (windows n text s cs cs) = drop (Z.to_nat s) text.
Proof.
  intros Hcs. revert s.
  induction n as [|n IH]; intros s Hs Hn.
  - destruct (Z.lt_ge_cases s (len text)).
    + rewrite count_from_step in Hn; lia.
    + simpl. rewrite drop_ge; [done|]. unfold len in *. lia.
  - destruct (Z.lt_ge_cases s (len text)) as [Hlt|Hge].
    2:{ rewrite count_from_done in Hn; lia. }
    rewrite count_from_step in Hn by lia. simpl.
    rewrite IH by lia. unfold window.
    replace (Z.to_nat (s + cs)) with (Z.to_nat s + Z.to_nat cs)%nat by lia.
    rewrite <- drop_drop. apply take_drop.
Qed.

(** What [chunk_text] returns, chunk by chunk, for [0 <= cs] and
    [ov < cs]: chunk [i] exists exactly when [start_i < len(text)] and is
    the window at [start_i]. *)
Lemma chunk_text_lookup text cs ov r (i : nat) c :
  0 <= cs -> ov < cs -> chunk_text text cs ov = Some r -> r !! i = Some c ->
  start_of cs ov i < len text /\ c = window text (start_of cs ov i) cs.
Proof.
  intros Hcs Hstep Hr Hi.
  rewrite chunk_text_windows in Hr by done. injection Hr as <-.
  pose proof (lookup_lt_Some _ _ _ Hi) as Hlt. rewrite length_windows in Hlt.
  rewrite lookup_windows in Hi by done. injection Hi as <-.
  split; [by apply count_from_lt; [lia|]|]. unfold start_of. f_equal.
Qed.

End ChunkerFacts.
(** *** The chunker's contract *)

(** C3. For a chunk size that is not negative and an overlap below it,
    [chunk_text] returns, and chunk [i] of the result exists exactly when
    [start_i = i * (chunk_size - overlap)] lies before the end of the text
    ([start_0 = 0], [start_{i+1} = start_i + chunk_size - overlap]); it
    holds the characters of the text at the positions
    [[start_i, start_i + chunk_size)], cut off at the end of the text.
    Consequently [chunk_text("abcdefghij", 4, 1)] is
    [["abcd", "defg", "ghij", "j"]]. *)
Theorem chunk_text_is_windows :
  (forall text cs ov, 0 <= cs -> ov < cs ->
     exists r,
       chunk_text text cs ov = Some r /\
       start_of cs ov 0 = 0 /\
       (forall i : nat, start_of cs ov (S i) = start_of cs ov i + cs - ov) /\
       (forall i : nat, (i < length r)%nat <-> start_of cs ov i < len text) /\
       (forall (i : nat) c, r !! i = Some c ->
          len c = Z.min cs (len text - start_of cs ov i) /\
          forall j : nat, (j < length c)%nat ->
            c !! j = text !! (Z.to_nat (start_of cs ov i) + j)%nat)) /\
  chunk_text (of_string "abcdefghij") 4 1 =
    Some [of_string "abcd"; of_string "defg"; of_string "ghij"; of_string "j"].
Proof.
  split; [|reflexivity].
  intros text cs ov Hcs Hstep. eexists. split; [by apply chunk_text_windows|].
  split; [unfold start_of; lia|]. split; [intros; unfold start_of; lia|].
  split.
  - intros i. rewrite length_windows. apply count_from_lt. lia.
  - intros i c Hi.
    destruct (chunk_text_lookup text cs ov _ i c Hcs Hstep
                (chunk_text_windows text cs ov Hcs Hstep) Hi) as [Hlt ->].
    assert (0 <= start_of cs ov i) by (unfold start_of; nia).
    split; [apply length_window; lia|]. apply lookup_window.
Qed.

Lemma chunk_text_is_windows_witness :
  exists r, chunk_text (of_string "abcdefghij") 4 1 = Some r /\ length r = 4%nat.
Proof.
  destruct chunk_text_is_windows as [H _].
  destruct (H (of_string "abcdefghij") 4 1 ltac:(lia) ltac:(lia))
    as (r & Hr & _ & _ & Hlen & _).
  exists r. split; [exact Hr|].
  destruct (Nat.lt_trichotomy (length r) 4) as [Hlt|[Heq|Hgt]]; [|exact Heq|].
  - exfalso. assert (Hn : ~ (3 < length r)%nat) by lia. apply Hn.
    apply Hlen. vm_compute. reflexivity.
  - exfalso. apply Hlen in Hgt. vm_compute in Hgt. discriminate Hgt.
Defined.

(** C4, as the code has it. For [0 <= overlap < chunk_size] and every
    adjacent pair of chunks [i], [i+1]: the first [overlap] characters of
    chunk [i+1] are the characters of chunk [i] from offset
    [chunk_size - overlap] on; when chunk [i] has the full length
    [chunk_size], these are its last [overlap] characters. *)
Theorem overlap_shared_region text cs ov r (i : nat) a b :
  0 <= ov < cs -> chunk_text text cs ov = Some r ->
  r !! i = Some a -> r !! S i = Some b ->
  first_n ov b = drop (Z.to_nat (cs - ov)) a /\
  (len a = cs -> last_n ov a = first_n ov b).
Proof.
  intros Hov Hr Ha Hb.
  destruct (chunk_text_lookup text cs ov r i a) as [Hsa ->]; [lia..|done|done|].
  destruct (chunk_text_lookup text cs ov r (S i) b) as [Hsb ->]; [lia..|done|done|].
  assert (Hsi : 0 <= start_of cs ov i) by (unfold start_of; nia).
  assert (Hss : start_of cs ov (S i) = start_of cs ov i + (cs - ov))
    by (unfold start_of; lia).
  rewrite Hss in *.
  assert (Heq : first_n ov (window text (start_of cs ov i + (cs - ov)) cs)
                = drop (Z.to_nat (cs - ov)) (window text (start_of cs ov i) cs)).
  { unfold first_n, window. rewrite take_take.
    replace (Z.to_nat cs) with (Z.to_nat (cs - ov) + Z.to_nat ov)%nat at 2 by lia.
    rewrite <- take_drop_commute, drop_drop.
    f_equal; [lia|f_equal; lia]. }
  split; [exact Heq|].
  intros Hfull. rewrite Heq. unfold last_n. f_equal. unfold len in *. lia.
Qed.

Lemma overlap_shared_region_witness :
  first_n 1 (of_string "defg") = drop 3 (of_string "abcd") /\
  (len (of_string "abcd") = 4 -> last_n 1 (of_string "abcd") = first_n 1 (of_string "defg")).
Proof.
  apply (overlap_shared_region (of_string "abcdefghij") 4 1
           [of_string "abcd"; of_string "defg"; of_string "ghij"; of_string "j"] 0);
    [lia|reflexivity|reflexivity|reflexivity].
Defined.

(** C4, as stated, fails where a chunk is cut off by the end of the text
    and still has a successor: [chunk_text("abcde", 4, 2)] is
    [["abcd", "cde", "e"]]; the last two characters of ["cde"] are ["de"],
    the first two of ["e"] are ["e"]. *)
Lemma overlap_invariant_fails :
  exists r a b,
    0 <= 2 < 4 /\
    chunk_text (of_string "abcde") 4 2 = Some r /\
    r !! 1%nat = Some a /\ r !! 2%nat = Some b /\
    last_n 2 a <> first_n 2 b.
Proof.
  exists [of_string "abcd"; of_string "cde"; of_string "e"],
    (of_string "cde"), (of_string "e").
  split; [lia|]. do 3 (split; [reflexivity|]). vm_compute. discriminate.
Qed.

(** C5, as the code has it. [overlap < chunk_size] is an unchecked
    precondition: under it every execution of the loop body moves [start]
    forward and [chunk_text] returns for every text. When it is violated
    nothing is raised and nothing guards the loop: [chunk_text] returns the
    empty list for the empty text and never returns for any other text. *)
Theorem chunk_text_termination text cs ov :
  (ov < cs ->
     (forall st, start st < start (loop_body text cs ov st)) /\
     exists r, chunk_text text cs ov = Some r) /\
  (cs <= ov ->
     (forall st, start (loop_body text cs ov st) <= start st) /\
     (text = [] -> chunk_text text cs ov = Some []) /\
     (text <> [] -> diverges text cs ov)).
Proof.
  split.
  - intros Hstep. split; [intros st; simpl; lia|].
    apply while_loop_terminates; [done|]. simpl. unfold len. lia.
  - intros Hstep. split; [intros st; simpl; lia|]. split.
    + intros ->. apply chunk_text_fuel_nil.
    + intros Hne fuel. apply while_loop_diverges; [done|].
      destruct text; [done|]. simpl. unfold len. simpl. lia.
Qed.

Lemma chunk_text_termination_witness :
  (exists r, chunk_text (of_string "abcdefghij") 4 1 = Some r) /\
  diverges (of_string "a") 4 4.
Proof.
  split.
  - apply (chunk_text_termination (of_string "abcdefghij") 4 1). lia.
  - apply (chunk_text_termination (of_string "a") 4 4); [lia|discriminate].
Defined.

(** C5, as stated, fails: with [overlap = chunk_size = 1] the call
    [chunk_text("a", 1, 1)] raises nothing and never leaves its loop. *)
Lemma invalid_config_not_rejected : 1 <= 1 /\ diverges (of_string "a") 1 1.
Proof.
  split; [lia|]. intros fuel. apply while_loop_diverges; [lia|].
  vm_compute. reflexivity.
Qed.

(** C7, as the code has it. For [0 <= overlap < chunk_size] and every
    text, [chunk_text] returns chunks such that the last character of the
    final chunk is the last character of the text (neither exists for the
    empty text) and the chunk lengths add up to at least [len(text)]. *)
Theorem coverage text cs ov :
  0 <= ov < cs ->
  exists r, chunk_text text cs ov = Some r /\
    final_char r = last_char text /\
    len text <= total_length r.
Proof.
  intros Hov. eexists. split; [apply chunk_text_windows; lia|]. split.
  - destruct (decide (text = [])) as [->|Hne].
    { rewrite count_from_done by (unfold len; simpl; lia). reflexivity. }
    apply final_char_windows; [lia| |done].
    destruct text; [done|]. unfold len. simpl. lia.
  - pose proof (total_length_windows
                  (count_from (len text) 0 (cs - ov)) text 0 cs (cs - ov)).
    lia.
Qed.

Lemma coverage_witness :
  exists r, chunk_text (of_string "abcdefghij") 4 1 = Some r /\
    final_char r = last_char (of_string "abcdefghij") /\
    len (of_string "abcdefghij") <= total_length r.
Proof. apply (coverage (of_string "abcdefghij") 4 1). lia. Defined.

(** C7, as stated for every overlap, fails for a negative one, which
    leaves gaps between the windows: [chunk_text("abc", 2, -1)] is
    [["ab"]]. *)
Lemma coverage_fails_negative_overlap :
  chunk_text (of_string "abc") 2 (-1) = Some [of_string "ab"] /\
  final_char [of_string "ab"] <> last_char (of_string "abc") /\
  ~ (len (of_string "abc") <= total_length [of_string "ab"]).
Proof. split; [reflexivity|]. split; [discriminate|]. vm_compute. tauto. Qed.

(** C8. With no overlap and a positive chunk size, [chunk_text] returns
    and the concatenation of its chunks is the text. *)
Theorem no_overlap_round_trip text cs :
  0 < cs ->
  exists r, chunk_text text cs 0 = Some r /\ concat r = text.
Proof.
  intros Hcs. eexists. split; [apply chunk_text_windows; lia|].
  rewrite Z.sub_0_r. by rewrite concat_windows by (done || lia).
Qed.

Lemma no_overlap_round_trip_witness :
  exists r, chunk_text (of_string "abcdefghij") 4 0 = Some r /\
    concat r = of_string "abcdefghij".
Proof. apply (no_overlap_round_trip (of_string "abcdefghij") 4). lia. Defined.

(** C9, as the code has it. [chunk_text] returns the empty list for the
    empty text; for [0 <= overlap < chunk_size] it returns chunks that are
    all non-empty and at most [chunk_size] long. A chunk whose window fits
    into the text has length exactly [chunk_size], a shorter one runs to
    the end of the text, and when [overlap <= 1] only the last chunk can be
    shorter. *)
Theorem chunk_lengths :
  (forall cs ov, chunk_text [] cs ov = Some []) /\
  (forall text cs ov, 0 <= ov < cs ->
     exists r, chunk_text text cs ov = Some r /\
       forall (i : nat) c, r !! i = Some c ->
         c <> [] /\ len c <= cs /\
         (start_of cs ov i + cs <= len text -> len c = cs) /\
         (len c < cs -> last_char c = last_char text) /\
         (ov <= 1 -> (S i < length r)%nat -> len c = cs)).
Proof.
  split; [intros; apply chunk_text_fuel_nil|].
  intros text cs ov Hov.
  assert (Hr := chunk_text_windows text cs ov ltac:(lia) ltac:(lia)).
  eexists. split; [exact Hr|]. intros i c Hi.
  destruct (chunk_text_lookup text cs ov _ i c ltac:(lia) ltac:(lia) Hr Hi)
    as [Hlt ->].
  assert (Hsi : 0 <= start_of cs ov i) by (unfold start_of; nia).
  pose proof (length_window text (start_of cs ov i) cs
                ltac:(lia) ltac:(lia) ltac:(lia)) as Hlen.
  repeat split.
  - intros Hnil. rewrite Hnil in Hlen. unfold len in Hlen at 1. simpl in Hlen. lia.
  - lia.
  - lia.
  - intros Hshort. rewrite window_to_end by lia.
    apply last_drop. unfold len in *. lia.
  - intros Hov1 Hnext. rewrite length_windows in Hnext.
    apply count_from_lt in Hnext; [|lia].
    unfold start_of in *. lia.
Qed.

Lemma chunk_lengths_witness :
  exists r, chunk_text (of_string "abcdefghij") 4 1 = Some r /\
    forall (i : nat) c, r !! i = Some c ->
      c <> [] /\ len c <= 4 /\
      (start_of 4 1 i + 4 <= len (of_string "abcdefghij") -> len c = 4) /\
      (len c < 4 -> last_char c = last_char (of_string "abcdefghij")) /\
      (1 <= 1 -> (S i < length r)%nat -> len c = 4).
Proof.
  destruct chunk_lengths as [_ H].
  apply (H (of_string "abcdefghij") 4 1). lia.
Defined.

(** C9, as stated, fails in its parenthesis: [chunk_text("abcdefg", 5, 3)]
    is [["abcde", "cdefg", "efg", "g"]], whose third chunk is not the last
    one and has 3 characters, not 5. *)
Lemma short_chunk_before_last :
  exists r c,
    0 <= 3 < 5 /\
    chunk_text (of_string "abcdefg") 5 3 = Some r /\
    r !! 2%nat = Some c /\ (S 2 < length r)%nat /\ len c <> 5.
Proof.
  exists [of_string "abcde"; of_string "cdefg"; of_string "efg"; of_string "g"],
    (of_string "efg").
  split; [lia|]. split; [reflexivity|]. split; [reflexivity|].
  split; [simpl; lia|]. vm_compute. discriminate.
Qed.
(** ** The fetcher and the pipeline *)

Section FetcherFacts.
Context {U : UnicodeData} (svc : Services).

Ltac run_step :=
  simpl in *;
  unfold mbind, M_bind, mret, M_ret, bind, ret, raise, hang, print, yield_,
    call_get_file_by_id, call_requests_get, try_except in *; simpl in *.

Lemma raise_for_status_quiet response : quiet (raise_for_status response).
Proof.
  intros w r w' H. unfold raise_for_status in H.
  repeat case_match; run_step; by simplify_eq.
Qed.

Lemma visit_representation_quiet file rep :
  quiet (visit_representation svc file rep).
Proof.
  intros w r w' H. unfold visit_representation in H.
  destruct (String.eqb _ _).
  - destruct (url_template rep) as [template|]; run_step; [|by simplify_eq].
    destruct (requests_get svc _ _ _) as [e|response]; simpl in H;
      [by simplify_eq|].
    destruct (raise_for_status response _) as [[[]|e|] w1] eqn:Hst.
    + apply raise_for_status_quiet in Hst as (? & ? & _). by simplify_eq.
    + apply raise_for_status_quiet in Hst as (? & ? & _). by simplify_eq.
    + apply raise_for_status_quiet in Hst as (_ & _ & ?). done.
  - run_step. simplify_eq. simpl. split; [done|]. split; [|done].
    unfold failure_lines. rewrite List.filter_app. simpl. apply app_nil_r.
Qed.

Lemma attempts_quiet n a file max_retries :
  quiet (attempts svc n a file max_retries).
Proof.
  revert a file. induction n as [|n IH]; intros a file w r w' H.
  - run_step. by simplify_eq.
  - simpl in H. run_step.
    destruct (get_file_by_id svc _ _) as [e|file1]; simpl in H;
      [by simplify_eq|].
    destruct (first_entry file1) as [rep|].
    + destruct (visit_representation svc file1 rep _) as [[t|e|] w1] eqn:Hv;
        apply visit_representation_quiet in Hv as (? & ? & ?);
        by simplify_eq.
    + destruct (a =? max_retries - 1); [by simplify_eq|].
      apply IH in H as (? & ? & ?). done.
Qed.

(** The loop cannot run out when it is entered with
    [attempt + remaining = max_retries]: its last iteration raises. *)
Lemma attempts_not_None n a file max_retries w :
  a + Z.of_nat n = max_retries -> (0 < n)%nat ->
  fst (attempts svc n a file max_retries w) <> Returns None.
Proof.
  revert a file w. induction n as [|n IH]; intros a file w Ha Hn; [lia|].
  simpl. run_step.
  destruct (get_file_by_id svc _ _) as [e|file1]; simpl; [done|].
  destruct (first_entry file1) as [rep|].
  - by destruct (visit_representation svc file1 rep _) as [[t|e|] w1].
  - destruct (Z.eqb_spec a (max_retries - 1)); [done|].
    apply IH; lia.
Qed.

(** With the default [max_retries=5] the fetcher returns a text or
    raises. *)
Lemma fetch_outcome file w :
  (exists text, fst (get_file_text_content svc file 5 5 w) = Returns (Some text))
  \/ (exists e, fst (get_file_text_content svc file 5 5 w) = Raises e).
Proof.
  assert (Hnone : fst (get_file_text_content svc file 5 5 w) <> Returns None)
    by (apply (attempts_not_None 5 0); lia).
  destruct (get_file_text_content svc file 5 5 w) as [r w'] eqn:H.
  apply attempts_quiet in H as (_ & _ & Hhang). simpl in *.
  destruct r as [[text|]|e|]; [eauto|done|eauto|done].
Qed.

(** *** The retry loop, where it retries *)

(** An attempt that finds no representation entry is followed by the next
    attempt, unless it was the last one. *)
Lemma attempt_without_entry n a file max_retries w file1 :
  get_file_by_id svc (lookups w) (id file) = inr file1 ->
  first_entry file1 = None ->
  attempts svc (S n) a file max_retries w =
    let w1 := {| lookups := S (lookups w); downloads := downloads w;
                 stdout := stdout w; yielded := yielded w |} in
    if a =? max_retries - 1 then
      (Raises (ValueError ("Text representation not ready for " +:+ name file1
                           +:+ " after " +:+ pretty max_retries
                           +:+ " attempts.")), w1)
    else attempts svc n (a + 1) file1 max_retries w1.
Proof.
  intros Hget Hnone. simpl. run_step. rewrite Hget. simpl. rewrite Hnone.
  by destruct (a =? max_retries - 1).
Qed.

(** An attempt that finds an entry ends the call, whatever the state of
    the entry. *)
Lemma attempt_with_entry n a file max_retries w file1 rep :
  get_file_by_id svc (lookups w) (id file) = inr file1 ->
  first_entry file1 = Some rep ->
  attempts svc (S n) a file max_retries w =
    (text ← visit_representation svc file1 rep; mret (Some text))
      {| lookups := S (lookups w); downloads := downloads w;
         stdout := stdout w; yielded := yielded w |}.
Proof.
  intros Hget Hsome. simpl. run_step. rewrite Hget. simpl. by rewrite Hsome.
Qed.

(** A source whose representation list is empty at every lookup: the call
    raises after exactly [max_retries] lookups and no download. *)
Lemma retries_exhausted file (max_retries delay : Z) w :
  0 < max_retries ->
  (forall k, exists file1,
      get_file_by_id svc k (id file) = inr file1 /\
      first_entry file1 = None /\ id file1 = id file /\
      name file1 = name file) ->
  get_file_text_content svc file max_retries delay w =
    (Raises (ValueError ("Text representation not ready for " +:+ name file
                         +:+ " after " +:+ pretty max_retries +:+ " attempts.")),
     {| lookups := (lookups w + Z.to_nat max_retries)%nat;
        downloads := downloads w; stdout := stdout w; yielded := yielded w |}).
Proof.
  intros Hpos Hsrc. unfold get_file_text_content.
  assert (Hgen : forall n a file0 w0,
             a + Z.of_nat n = max_retries -> (0 < n)%nat ->
             id file0 = id file ->
             attempts svc n a file0 max_retries w0 =
               (Raises (ValueError ("Text representation not ready for "
                                    +:+ name file +:+ " after "
                                    +:+ pretty max_retries +:+ " attempts.")),
                {| lookups := (lookups w0 + n)%nat; downloads := downloads w0;
                   stdout := stdout w0; yielded := yielded w0 |})).
  { induction n as [|n IH]; intros a file0 w0 Ha Hn Hid0; [lia|].
    destruct (Hsrc (lookups w0)) as (file1 & Hget & Hnone & Hid & Hnm).
    rewrite <- Hid0 in Hget.
    rewrite (attempt_without_entry _ _ _ _ _ file1) by done. simpl.
    destruct (Z.eqb_spec a (max_retries - 1)) as [Heq|Hne].
    - assert (n = 0%nat) as -> by lia. rewrite Hnm. do 2 f_equal. lia.
    - rewrite IH by (done || lia). simpl. do 2 f_equal. lia. }
  apply Hgen; [lia|lia|done].
Qed.

(** A source whose representation list is empty at the first
    [max_retries - 1] lookups of the call and holds an [extracted_text]
    entry at the next one: the call makes exactly [max_retries] lookups
    and ends with the download of that entry. *)
Lemma ready_on_last_attempt file (max_retries delay : Z) w file_r rep :
  0 < max_retries ->
  (forall k, (k < Z.to_nat max_retries - 1)%nat -> exists file1,
      get_file_by_id svc (lookups w + k) (id file) = inr file1 /\
      first_entry file1 = None /\ id file1 = id file) ->
  get_file_by_id svc (lookups w + (Z.to_nat max_retries - 1)) (id file)
    = inr file_r ->
  first_entry file_r = Some rep ->
  get_file_text_content svc file max_retries delay w =
    (text ← visit_representation svc file_r rep; mret (Some text))
      {| lookups := (lookups w + Z.to_nat max_retries)%nat;
         downloads := downloads w; stdout := stdout w; yielded := yielded w |}.
Proof.
  intros Hpos Hsrc Hget Hrep. unfold get_file_text_content.
  assert (Hgen : forall n a file0 w0,
             a + Z.of_nat n = max_retries -> (0 < n)%nat ->
             id file0 = id file ->
             (lookups w <= lookups w0)%nat ->
             (lookups w0 + n = lookups w + Z.to_nat max_retries)%nat ->
             downloads w0 = downloads w -> stdout w0 = stdout w ->
             yielded w0 = yielded w ->
             attempts svc n a file0 max_retries w0 =
               (text ← visit_representation svc file_r rep; mret (Some text))
                 {| lookups := (lookups w + Z.to_nat max_retries)%nat;
                    downloads := downloads w; stdout := stdout w;
                    yielded := yielded w |}).
  { induction n as [|n IH]; intros a file0 w0 Ha Hn Hid0 Hle Hl Hd Ho Hy; [lia|].
    destruct (decide (n = 0%nat)) as [->|Hn0].
    - replace (lookups w + (Z.to_nat max_retries - 1))%nat
        with (lookups w0) in Hget by lia.
      rewrite <- Hid0 in Hget.
      rewrite (attempt_with_entry _ _ _ _ _ file_r rep) by done.
      rewrite Hd, Ho, Hy. do 2 f_equal. lia.
    - destruct (Hsrc (lookups w0 - lookups w)%nat ltac:(lia))
        as (file1 & Hget1 & Hnone & Hid).
      replace (lookups w + (lookups w0 - lookups w))%nat
        with (lookups w0) in Hget1 by lia.
      rewrite <- Hid0 in Hget1.
      rewrite (attempt_without_entry _ _ _ _ _ file1) by done. simpl.
      destruct (Z.eqb_spec a (max_retries - 1)) as [Heq|Hne]; [lia|].
      apply IH; simpl; (done || lia || congruence). }
  apply Hgen; (done || lia).
Qed.

(** The download of an [extracted_text] entry, when the service answers
    without an error status: the call returns the normalized body. The
    state of the entry plays no part. *)
Lemma visit_representation_ok file rep template response w :
  representation rep = "extracted_text" ->
  url_template rep = Some template ->
  requests_get svc (lookups w) (downloads w)
    (replace "{+asset_path}" "" template +:+ "?access_token=" +:+ token svc)
    = inr response ->
  ~ (400 <= status_code response < 600) ->
  visit_representation svc file rep w =
    (Returns (clean_up_text (text response)),
     {| lookups := lookups w;
        downloads :=
          downloads w ++ [replace "{+asset_path}" "" template
                          +:+ "?access_token=" +:+ token svc];
        stdout := stdout w; yielded := yielded w |}).
Proof.
  intros Hkind Hurl Hget Hstatus. unfold visit_representation.
  rewrite Hkind, Hurl. simpl. run_step. rewrite Hget. simpl.
  unfold raise_for_status.
  destruct ((400 <=? status_code response) && (status_code response <? 500))
    eqn:H4; [lia|].
  destruct ((500 <=? status_code response) && (status_code response <? 600))
    eqn:H5; [lia|].
  done.
Qed.

End FetcherFacts.
Section PipelineFacts.
Context {U : UnicodeData} (svc : Services).

Ltac run_step :=
  simpl in *;
  unfold mbind, M_bind, mret, M_ret, bind, ret, raise, hang, print, yield_,
    call_get_file_by_id, call_requests_get, try_except in *; simpl in *.

Lemma records_from_cons file i chunk rest :
  records_from file i (chunk :: rest) =
    {| file_id := id file; file_name := name file; chunk_index := i;
       content := chunk; created_date := created_at file |}
      :: records_from file (i + 1) rest.
Proof.
  unfold records_from. rewrite imap_cons. f_equal; [f_equal; lia|].
  apply imap_ext. intros k c _. simpl. f_equal. lia.
Qed.

Lemma yield_chunks_spec chunks file i w :
  yield_chunks file i chunks w =
    (Returns tt,
     {| lookups := lookups w; downloads := downloads w; stdout := stdout w;
        yielded := yielded w ++ records_from file i chunks |}).
Proof.
  revert i w. induction chunks as [|chunk rest IH]; intros i w.
  - run_step. unfold records_from. simpl. rewrite app_nil_r. by destruct w.
  - simpl. run_step. rewrite IH. simpl.
    by rewrite records_from_cons, <- app_assoc.
Qed.

Lemma is_failure_line_error (x : string) :
  is_failure_line ("Error processing " +:+ x) = true.
Proof. unfold is_failure_line. simpl. by destruct x. Qed.

Lemma failure_lines_snoc out (x : string) :
  failure_lines (out ++ ["Error processing " +:+ x]) =
    failure_lines out ++ ["Error processing " +:+ x].
Proof.
  unfold failure_lines. rewrite List.filter_app. f_equal.
  cbn [List.filter]. by rewrite is_failure_line_error.
Qed.

(** One document: whatever its fetch does, the body of the loop ends
    normally; it yields all records of the document or none, and prints
    one failure line exactly when it yields none. *)
Lemma process_file_spec file w :
  let d := (file, fst (get_file_text_content svc file 5 5 w)) in
  exists w',
    process_file svc file w = (Returns tt, w') /\
    yielded w' = yielded w ++ records_of d /\
    failure_lines (stdout w') = failure_lines (stdout w) ++ failure_of d.
Proof.
  unfold process_file. run_step.
  destruct (get_file_text_content svc file 5 5 w) as [r w1] eqn:Hfetch.
  apply attempts_quiet in Hfetch as (Hy & Hout & Hhang).
  destruct r as [[text|]|e|]; simpl; [| | |done].
  - rewrite chunk_text_windows by lia. run_step. rewrite yield_chunks_spec.
    eexists. split; [reflexivity|]. simpl.
    rewrite Hy, Hout, app_nil_r. done.
  - eexists. split; [reflexivity|]. simpl.
    rewrite Hy, app_nil_r, <- Hout. split; [done|].
    apply failure_lines_snoc.
  - eexists. split; [reflexivity|]. simpl.
    rewrite Hy, app_nil_r, <- Hout. split; [done|].
    apply (failure_lines_snoc _ (name file +:+ ": " +:+ exn_str e)).
Qed.

Lemma extract_spec files w :
  exists w',
    extract_text_and_generate_embeddings svc files w = (Returns tt, w') /\
    yielded w' = yielded w ++ flat_map records_of (fetch_outcomes svc files w) /\
    failure_lines (stdout w') =
      failure_lines (stdout w) ++ flat_map failure_of (fetch_outcomes svc files w).
Proof.
  revert w. induction files as [|file rest IH]; intros w.
  - exists w. simpl. by rewrite !app_nil_r.
  - destruct (process_file_spec file w) as (w1 & Hrun & Hy & Hout).
    destruct (IH w1) as (w' & Hrest & Hy' & Hout').
    exists w'. simpl. run_step. rewrite Hrun. simpl.
    split; [exact Hrest|].
    rewrite Hy', Hout', Hy, Hout, <- !app_assoc. done.
Qed.

Lemma fetch_outcomes_classified files w d :
  In d (fetch_outcomes svc files w) ->
  (failed d = true /\ records_of d = [] /\ length (failure_of d) = 1%nat) \/
  (failed d = false /\ failure_of d = [] /\
   exists text chunks,
     snd d = Returns (Some text) /\ chunk_text text 4000 200 = Some chunks /\
     records_of d = records_from (fst d) 0 chunks).
Proof.
  revert w. induction files as [|file rest IH]; intros w; [done|].
  simpl. intros [<-|Hin]; [|by eapply IH].
  destruct (fetch_outcome svc file w) as [[text ->]|[e ->]].
  - right. split; [reflexivity|]. split; [reflexivity|].
    exists text. eexists. split; [reflexivity|].
    split; [apply chunk_text_windows; lia|].
    unfold records_of. by rewrite chunk_text_windows by lia.
  - left. repeat split.
Qed.

End PipelineFacts.

(** The retry loop, where it does retry. For [max_retries >= 1]:
    - an attempt that finds the representation list empty (or missing)
      counts as a failure, and unless it was the last one the next
      attempt follows at once;
    - when the list is empty at the first [max_retries - 1] lookups of the
      call and the next lookup lists an [extracted_text] entry first, the
      call downloads it and returns the normalized body, after exactly
      [max_retries] lookups;
    - when the list is empty at every lookup, and every lookup answers
      with the name of the document, the call raises the [ValueError]
      that names the document and [max_retries], after exactly
      [max_retries] lookups and no download. *)
Theorem fetch_retries_on_empty_list
    (U : UnicodeData) svc file (max_retries delay : Z) w :
  0 < max_retries ->
  (forall n a file0 w0 file1,
      get_file_by_id svc (lookups w0) (id file0) = inr file1 ->
      first_entry file1 = None -> a <> max_retries - 1 ->
      attempts svc (S n) a file0 max_retries w0 =
        attempts svc n (a + 1) file1 max_retries
          {| lookups := S (lookups w0); downloads := downloads w0;
             stdout := stdout w0; yielded := yielded w0 |}) /\
  (forall file_r rep template response,
      (forall k, (k < Z.to_nat max_retries - 1)%nat -> exists file1,
          get_file_by_id svc (lookups w + k) (id file) = inr file1 /\
          first_entry file1 = None /\ id file1 = id file) ->
      get_file_by_id svc (lookups w + (Z.to_nat max_retries - 1)) (id file)
        = inr file_r ->
      first_entry file_r = Some rep ->
      representation rep = "extracted_text" ->
      url_template rep = Some template ->
      requests_get svc (lookups w + Z.to_nat max_retries) (downloads w)
        (replace "{+asset_path}" "" template +:+ "?access_token=" +:+ token svc)
        = inr response ->
      ~ (400 <= status_code response < 600) ->
      get_file_text_content svc file max_retries delay w =
        (Returns (Some (clean_up_text (text response))),
         {| lookups := (lookups w + Z.to_nat max_retries)%nat;
            downloads :=
              downloads w ++ [replace "{+asset_path}" "" template
                              +:+ "?access_token=" +:+ token svc];
            stdout := stdout w; yielded := yielded w |})) /\
  ((forall k, exists file1,
       get_file_by_id svc k (id file) = inr file1 /\
       first_entry file1 = None /\ id file1 = id file /\
       name file1 = name file) ->
   get_file_text_content svc file max_retries delay w =
     (Raises (ValueError ("Text representation not ready for " +:+ name file
                          +:+ " after " +:+ pretty max_retries
                          +:+ " attempts.")),
      {| lookups := (lookups w + Z.to_nat max_retries)%nat;
         downloads := downloads w; stdout := stdout w;
         yielded := yielded w |})).
Proof.
  intros Hpos. split; [|split].
  - intros n a file0 w0 file1 Hget Hnone Ha.
    rewrite (attempt_without_entry svc n a file0 max_retries w0 file1) by done.
    simpl. by destruct (Z.eqb_spec a (max_retries - 1)).
  - intros file_r rep template response Hempty Hget Hrep Hkind Hurl Hdl Hst.
    rewrite (ready_on_last_attempt svc file max_retries delay w file_r rep)
      by done.
    unfold mbind, M_bind, bind.
    by rewrite (visit_representation_ok svc file_r rep template response).
  - by apply retries_exhausted.
Qed.

Lemma fetch_retries_on_empty_list_witness :
  @get_file_text_content ascii_only
    (Scenario.empty_then_ready 4 (of_string "Hello  world"))
    (Scenario.doc "7") 5 5 world0 =
  (Returns (Some (@clean_up_text ascii_only (of_string "Hello  world"))),
   {| lookups := 5; downloads := [Scenario.download_url "7"];
      stdout := []; yielded := [] |}) /\
  @get_file_text_content ascii_only Scenario.always_empty
    (Scenario.doc "7") 5 5 world0 =
  (Raises (ValueError "Text representation not ready for doc7.pdf after 5 attempts."),
   {| lookups := 5; downloads := []; stdout := []; yielded := [] |}).
Proof.
  split.
  - destruct (fetch_retries_on_empty_list ascii_only
                (Scenario.empty_then_ready 4 (of_string "Hello  world"))
                (Scenario.doc "7") 5 5 world0 ltac:(lia)) as (_ & Hready & _).
    apply (Hready
             (Scenario.with_entries (Scenario.doc "7")
                [Scenario.text_rep "7" "success"])
             (Scenario.text_rep "7" "success")
             "https://dl.boxcloud.com/api/2.0/internal_files/7/versions/1/representations/extracted_text/content/{+asset_path}"
             (Scenario.ok (Scenario.download_url "7") (of_string "Hello  world")));
      try reflexivity.
    + intros k Hk. change (Z.to_nat 5 - 1)%nat with 4%nat in Hk.
      exists (Scenario.with_entries (Scenario.doc "7") []).
      split; [|split; reflexivity]. simpl.
      destruct (Nat.ltb_spec k 4) as [_|Hge]; [reflexivity|lia].
    + simpl. lia.
  - destruct (fetch_retries_on_empty_list ascii_only Scenario.always_empty
                (Scenario.doc "7") 5 5 world0 ltac:(lia)) as (_ & _ & Hempty).
    apply Hempty. intros k. eexists. repeat split; reflexivity.
Defined.

(** C1. The docstring of [get_file_text_content] promises "retry logic"
    and both of its error messages speak of a text representation that is
    "not ready"; the claim says as much: an attempt that finds the
    representation not ready counts as a failure and is retried. The code
    never reads [rep.status.state]. The source below lists the
    [extracted_text] entry in state [pending] during the first four
    lookups and in state [success] from the fifth on, and answers a
    download asked for while it is pending with 202 and no body. With
    [max_retries=5] the fetcher downloads at its first attempt and returns
    the empty text after one lookup; the pipeline then yields no record
    for the document and prints nothing. *)
Theorem pending_representation_downloaded_at_once (U : UnicodeData) :
  get_file_text_content (Scenario.pending_then_ready 4 (of_string "Hello world"))
    (Scenario.doc "7") 5 5 world0 =
  (Returns (Some []),
   {| lookups := 1; downloads := [Scenario.download_url "7"];
      stdout := []; yielded := [] |}) /\
  process_file (Scenario.pending_then_ready 4 (of_string "Hello world"))
    (Scenario.doc "7") world0 =
  (Returns tt,
   {| lookups := 1; downloads := [Scenario.download_url "7"];
      stdout := []; yielded := [] |}).
Proof. split; reflexivity. Qed.

(** Hence the call neither makes five lookups nor returns the text that
    is ready at the fifth: an attempt that finds the representation not
    ready is not followed by a retry. *)
Lemma pending_representation_not_retried :
  ~ exists (U : UnicodeData) r w',
      get_file_text_content
        (Scenario.pending_then_ready 4 (of_string "Hello world"))
        (Scenario.doc "7") 5 5 world0 = (r, w') /\
      (lookups w' = 5%nat \/ r = Returns (Some (of_string "Hello world"))).
Proof.
  intros (U & r & w' & Hrun & Hclaim).
  assert (Hfetch :
            get_file_text_content
              (Scenario.pending_then_ready 4 (of_string "Hello world"))
              (Scenario.doc "7") 5 5 world0 =
            (Returns (Some []),
             {| lookups := 1; downloads := [Scenario.download_url "7"];
                stdout := []; yielded := [] |})) by reflexivity.
  rewrite Hfetch in Hrun. injection Hrun as <- <-. by destruct Hclaim.
Qed.

(** The same at any source: an attempt that finds an [extracted_text]
    entry downloads it at once and ends the call with what the download
    gives; the state of the entry is not looked at. *)
Lemma entry_state_ignored {U : UnicodeData} svc n a file max_retries w file1 rep rep' :
  get_file_by_id svc (lookups w) (id file) = inr file1 ->
  first_entry file1 = Some rep ->
  representation rep' = representation rep ->
  url_template rep' = url_template rep ->
  attempts svc (S n) a file max_retries w =
    (text ← visit_representation svc file1 rep'; mret (Some text))
      {| lookups := S (lookups w); downloads := downloads w;
         stdout := stdout w; yielded := yielded w |}.
Proof.
  intros Hget Hsome Hkind Hurl.
  rewrite (attempt_with_entry svc n a file max_retries w file1 rep) by done.
  unfold visit_representation. by rewrite Hkind, Hurl.
Qed.

(** A first entry of another kind raises at the first attempt: no retry
    either. *)
Lemma other_kind_not_retried (U : UnicodeData) :
  get_file_text_content (Scenario.other_kind_first (of_string "Hello world"))
    (Scenario.doc "7") 5 5 world0 =
  (Raises (ValueError "Text representation not ready for file 7"),
   {| lookups := 1; downloads := [];
      stdout := ["Text representation not ready for file 7"]; yielded := [] |}).
Proof. reflexivity. Qed.

(** Where the code does retry: an empty representation list. *)
Lemma empty_list_retried (U : UnicodeData) :
  get_file_text_content (Scenario.empty_then_ready 4 (of_string "Hello world"))
    (Scenario.doc "7") 5 5 world0 =
  (Returns (Some (of_string "Hello world")),
   {| lookups := 5; downloads := [Scenario.download_url "7"];
      stdout := []; yielded := [] |}).
Proof. reflexivity. Qed.

Lemma always_empty_exhausts (U : UnicodeData) (max_retries delay : Z) w :
  0 < max_retries ->
  get_file_text_content Scenario.always_empty (Scenario.doc "7") max_retries delay w =
  (Raises (ValueError ("Text representation not ready for doc7.pdf after "
                       +:+ pretty max_retries +:+ " attempts.")),
   {| lookups := (lookups w + Z.to_nat max_retries)%nat;
      downloads := downloads w; stdout := stdout w; yielded := yielded w |}).
Proof.
  intros Hpos.
  apply (retries_exhausted Scenario.always_empty (Scenario.doc "7")); [done|].
  intros k. eexists. repeat split; reflexivity.
Qed.

(** With [max_retries <= 0] the loop is not entered: the call makes no
    lookup and returns [None]. *)
Lemma no_attempt_returns_None (U : UnicodeData) svc file max_retries delay w :
  max_retries <= 0 ->
  get_file_text_content svc file max_retries delay w = (Returns None, w).
Proof.
  intros Hle. unfold get_file_text_content.
  by replace (Z.to_nat max_retries) with 0%nat by lia.
Qed.

(** C2. Whatever the documents and the services do, the run ends
    normally. A document whose fetch returns a text contributes all its
    chunk records, indexed from 0; a document whose fetch fails
    contributes no record and exactly one failure line of the pipeline
    (["Error processing <name>: <error>"]); the records and the failure
    lines appear in the order of the documents. With three documents of
    which the second never gets ready, the records are those of the first
    and the third, and the one line printed is the failure of the
    second. *)
Theorem failure_isolation :
  (forall (U : UnicodeData) svc files w,
     exists w',
       extract_text_and_generate_embeddings svc files w = (Returns tt, w') /\
       yielded w' =
         yielded w ++ flat_map records_of (fetch_outcomes svc files w) /\
       failure_lines (stdout w') =
         failure_lines (stdout w)
           ++ flat_map failure_of (fetch_outcomes svc files w) /\
       forall d, In d (fetch_outcomes svc files w) ->
         (failed d = true /\ records_of d = [] /\
          length (failure_of d) = 1%nat) \/
         (failed d = false /\ failure_of d = [] /\
          exists text chunks,
            snd d = Returns (Some text) /\
            chunk_text text 4000 200 = Some chunks /\
            records_of d = records_from (fst d) 0 chunks)) /\
  (forall U : UnicodeData,
     extract_text_and_generate_embeddings Scenario.second_never_ready
       [Scenario.doc "1"; Scenario.doc "2"; Scenario.doc "3"] world0 =
     (Returns tt,
      {| lookups := 7;
         downloads := [Scenario.download_url "1"; Scenario.download_url "3"];
         stdout := ["Error processing doc2.pdf: Text representation not ready for doc2.pdf after 5 attempts."];
         yielded :=
           [ {| file_id := "1"; file_name := "doc1.pdf"; chunk_index := 0;
                content := of_string "first text";
                created_date := "2024-05-01T09:00:00-07:00" |};
             {| file_id := "3"; file_name := "doc3.pdf"; chunk_index := 0;
                content := of_string "thirdtext";
                created_date := "2024-05-01T09:00:00-07:00" |} ] |})).
Proof.
  split.
  - intros U svc files w.
    destruct (extract_spec svc files w) as (w' & Hrun & Hy & Hout).
    exists w'. repeat split; try done.
    intros d. apply fetch_outcomes_classified.
  - intros U. vm_compute. reflexivity.
Qed.

(** C10. The [delay] argument has no influence on what
    [get_file_text_content] does: the outcome and the calls made are the
    same for any two values. *)
Theorem delay_is_ignored (U : UnicodeData) svc file max_retries delay1 delay2 w :
  get_file_text_content svc file max_retries delay1 w =
  get_file_text_content svc file max_retries delay2 w.
Proof. reflexivity. Qed.
(** ** The normalizer *)

Module ReFacts.
Import Re.

Lemma takew_dropw p s : takew p s ++ dropw p s = s.
Proof. induction s as [|c s IH]; simpl; [done|]. destruct (p c); simpl; congruence. Qed.

Lemma length_dropw p s : (length (dropw p s) <= length s)%nat.
Proof. induction s as [|c s IH]; simpl; [done|]. destruct (p c); simpl; lia. Qed.

Lemma dropw_head p s c t : dropw p s = c :: t -> p c = false.
Proof.
  induction s as [|d s IH]; simpl; [done|].
  destruct (p d) eqn:Hd; [done|]. intros [= -> ->]. done.
Qed.

Lemma dropw_id p s : (forall c t, s = c :: t -> p c = false) -> dropw p s = s.
Proof. destruct s as [|c s]; simpl; [done|]. intros H. by rewrite (H c s). Qed.

Lemma dropw_app p (m s : str) :
  Forall (fun c => p c = true) m -> dropw p (m ++ s) = dropw p s.
Proof. induction 1 as [|c m Hc _ IH]; simpl; [done|]. by rewrite Hc. Qed.

Lemma takew_all p s : Forall (fun c => p c = true) (takew p s).
Proof.
  induction s as [|c s IH]; simpl; [constructor|].
  destruct (p c) eqn:Hc; by constructor.
Qed.

(** *** Greedy repetition without surprises *)

(** When the continuation cannot succeed in front of a character of the
    class, backtracking never helps: the repetition takes the longest
    run. *)
Lemma greedy_longest {R} p (k : str -> str -> option R) acc s :
  (forall m c t, p c = true -> k m (c :: t) = None) ->
  greedy p k acc s = k (acc ++ takew p s) (dropw p s).
Proof.
  intros Hk. revert acc. induction s as [|c s IH]; intros acc; simpl.
  - by rewrite app_nil_r.
  - destruct (p c) eqn:Hc; [|by rewrite app_nil_r].
    rewrite IH, <- app_assoc. simpl.
    destruct (k _ _); [done|]. by apply Hk.
Qed.

(** The same when the continuation always succeeds. *)
Lemma greedy_longest_total {R} p (k : str -> str -> option R) acc s :
  (forall m t, is_Some (k m t)) ->
  greedy p k acc s = k (acc ++ takew p s) (dropw p s).
Proof.
  intros Hk. revert acc. induction s as [|c s IH]; intros acc; simpl.
  - by rewrite app_nil_r.
  - destruct (p c) eqn:Hc; [|by rewrite app_nil_r].
    rewrite IH, <- app_assoc. simpl.
    by destruct (Hk (acc ++ c :: takew p s) (dropw p s)) as [r ->].
Qed.

(** What a successful repetition consumed. *)
Lemma greedy_sound {R} p (k : str -> str -> option R) acc s r :
  greedy p k acc s = Some r ->
  exists m t, s = m ++ t /\ Forall (fun c => p c = true) m /\
              k (acc ++ m) t = Some r.
Proof.
  revert acc. induction s as [|c s IH]; intros acc; simpl.
  - intros H. exists [], []. rewrite (app_nil_r acc).
        split; [done|]. split; [by apply Forall_nil|done].
  - destruct (p c) eqn:Hc.
    + destruct (greedy p k (acc ++ [c]) s) as [r'|] eqn:Hg.
      * intros [= ->]. destruct (IH _ Hg) as (m & t & -> & Hm & Hk).
        exists (c :: m), t. rewrite <- app_assoc in Hk.
        split; [done|]. split; [by constructor|done].
      * intros H. exists [], (c :: s). rewrite (app_nil_r acc).
        split; [done|]. split; [by apply Forall_nil|done].
    + intros H. exists [], (c :: s). rewrite (app_nil_r acc).
        split; [done|]. split; [by apply Forall_nil|done].
Qed.

Lemma exactly_sound n p s m t :
  exactly n p s = Some (m, t) ->
  s = m ++ t /\ Forall (fun c => p c = true) m /\ length m = n.
Proof.
  revert s m t. induction n as [|n IH]; intros s m t; simpl.
  - intros [= <- <-]. done.
  - destruct s as [|c s]; [done|]. destruct (p c) eqn:Hc; [|done].
    destruct (exactly n p s) as [[m' t']|] eqn:He; [|done].
    intros [= <- <-]. destruct (IH _ _ _ He) as (-> & Hm & Hl).
    split; [done|]. split; [by constructor|simpl; lia].
Qed.

(** *** What a match consumed *)

Lemma match_here_sound re s caps rest :
  match_here re s = Some (caps, rest) ->
  s = concat caps ++ rest /\ Forall2 atom_match re caps.
Proof.
  revert s caps rest. induction re as [|a re IH]; intros s caps rest; simpl.
  - intros [= <- <-]. split; [done|constructor].
  - set (k := fun (m rest0 : str) =>
                match match_here re rest0 with
                | Some (caps0, r) => Some (m :: caps0, r)
                | None => None
                end).
    assert (Hk : forall m t, k m t = Some (caps, rest) ->
               exists caps', caps = m :: caps' /\
                 t = concat caps' ++ rest /\ Forall2 atom_match re caps').
    { intros m t. unfold k.
      destruct (match_here re t) as [[caps' r]|] eqn:Hm; [|done].
      intros [= <- <-]. destruct (IH _ _ _ Hm). eauto. }
    unfold atom_match. destruct (qnt a) eqn:Hq.
    + destruct s as [|c s]; [done|]. destruct (cls a c) eqn:Hc; [|done].
      intros H. destruct (Hk _ _ H) as (caps' & -> & -> & Hcaps).
      split; [done|]. constructor; [|done]. rewrite Hq. split; [|done].
      by repeat constructor.
    + intros H. destruct (greedy_sound _ _ _ _ _ H) as (m & t & -> & Hm & H').
      destruct (Hk _ _ H') as (caps' & -> & -> & Hcaps).
      split; [simpl; by rewrite <- app_assoc|].
      constructor; [|done]. by rewrite Hq.
    + destruct s as [|c s]; [done|]. destruct (cls a c) eqn:Hc; [|done].
      intros H. destruct (greedy_sound _ _ _ _ _ H) as (m & t & -> & Hm & H').
      destruct (Hk _ _ H') as (caps' & -> & -> & Hcaps).
      split; [simpl; by rewrite <- app_assoc|].
      constructor; [|done]. rewrite Hq. split; [by constructor|simpl; lia].
    + destruct (exactly n (cls a) s) as [[m t]|] eqn:He; [|done].
      intros H. destruct (exactly_sound _ _ _ _ _ He) as (-> & Hm & Hl).
      destruct (Hk _ _ H) as (caps' & -> & -> & Hcaps).
      split; [simpl; by rewrite <- app_assoc|].
      constructor; [|done]. by rewrite Hq.
Qed.

(** *** The scan *)

Lemma sub_scan_fuel re repl fuel1 fuel2 s :
  consuming re -> (length s <= fuel1)%nat -> (length s <= fuel2)%nat ->
  sub_scan fuel1 re repl s = sub_scan fuel2 re repl s.
Proof.
  intros Hre. revert fuel2 s.
  induction fuel1 as [|fuel1 IH]; intros fuel2 s H1 H2.
  - destruct s; [|simpl in H1; lia]. by destruct fuel2.
  - destruct fuel2 as [|fuel2].
    + destruct s; [done|simpl in H2; lia].
    + simpl. destruct s as [|c s]; [done|].
      destruct (match_here re (c :: s)) as [[caps rest]|] eqn:Hm.
      * apply Hre in Hm. simpl in *. f_equal. apply IH; lia.
      * simpl in *. f_equal. apply IH; lia.
Qed.

Lemma sub_nil re repl : sub re repl [] = [].
Proof. done. Qed.

Lemma sub_cons re repl c s :
  consuming re ->
  sub re repl (c :: s) =
    match match_here re (c :: s) with
    | Some (caps, rest) => repl caps ++ sub re repl rest
    | None => c :: sub re repl s
    end.
Proof.
  intros Hre. unfold sub. simpl.
  destruct (match_here re (c :: s)) as [[caps rest]|] eqn:Hm; [|done].
  apply Hre in Hm. simpl in Hm. f_equal. apply sub_scan_fuel; [done|lia|lia].
Qed.

(** A pattern that occurs nowhere is replaced nowhere. *)
Lemma sub_scan_no_match re repl fuel s :
  search re s = false -> sub_scan fuel re repl s = s.
Proof.
  revert s. induction fuel as [|fuel IH]; intros s; [done|].
  destruct s as [|c s]; [done|]. simpl.
  destruct (match_here re (c :: s)) as [[caps rest]|]; [done|].
  intros H. f_equal. by apply IH.
Qed.

Lemma sub_no_match re repl s : search re s = false -> sub re repl s = s.
Proof. apply sub_scan_no_match. Qed.

(** A match of a pattern with a literal character contains that
    character. *)
Lemma literal_in_captures re caps (x : N) :
  In (chr x) re -> Forall2 atom_match re caps -> In x (concat caps).
Proof.
  intros Hin Hcaps. induction Hcaps as [|a m re caps Ha _ IH]; [done|].
  simpl. apply in_or_app. destruct Hin as [->|Hin]; [left|right; by apply IH].
  destruct Ha as [Hall Hlen]. simpl in Hlen.
  destruct m as [|d [|? ?]]; try done.
  apply Forall_inv in Hall. simpl in Hall. apply N.eqb_eq in Hall as <-.
  by left.
Qed.

Lemma match_needs_char re (x : N) s caps rest :
  In (chr x) re -> match_here re s = Some (caps, rest) -> In x s.
Proof.
  intros Hre Hm. destruct (match_here_sound _ _ _ _ Hm) as [-> Hcaps].
  apply in_or_app. left. by apply (literal_in_captures re).
Qed.

(** A pattern with a literal character does not occur in a text without
    that character. *)
Lemma search_without_char re (x : N) s :
  In (chr x) re -> ~ In x s -> search re s = false.
Proof.
  intros Hre. induction s as [|c s IH]; intros Hs; simpl.
  - destruct (match_here re []) as [[caps rest]|] eqn:Hm; [|done].
    by apply (match_needs_char _ x) in Hm.
  - destruct (match_here re (c :: s)) as [[caps rest]|] eqn:Hm.
    + by apply (match_needs_char _ x) in Hm.
    + apply IH. intros Hin. apply Hs. by right.
Qed.

(** A pattern that starts with a single character never matches the
    empty string. *)
Lemma consuming_first_one a re : qnt a = One -> consuming (a :: re).
Proof.
  intros Hq s caps rest. simpl. rewrite Hq.
  destruct s as [|c s]; [done|]. destruct (cls a c); [|done].
  destruct (match_here re s) as [[caps' r]|] eqn:Hm; [|done].
  intros [= <- <-]. apply match_here_sound in Hm as [-> _].
  simpl. rewrite length_app. lia.
Qed.

(** Deleting the matches of a pattern shortens the text exactly when the
    pattern occurs in it. *)
Lemma length_sub_delete re s :
  consuming re ->
  (length (sub re (fun _ => []) s) <= length s)%nat /\
  (search re s = true -> (length (sub re (fun _ => []) s) < length s)%nat).
Proof.
  intros Hre. remember (length s) as n eqn:Hn. revert s Hn.
  induction n as [n IH] using lt_wf_ind. intros [|c s] ->.
  - split; [done|]. simpl.
    destruct (match_here re []) as [[caps rest]|] eqn:Hm; [|done].
    apply Hre in Hm. simpl in Hm. lia.
  - rewrite sub_cons by done. simpl.
    destruct (match_here re (c :: s)) as [[caps rest]|] eqn:Hm.
    + apply Hre in Hm. simpl in Hm.
      destruct (IH (length rest) ltac:(simpl; lia) rest eq_refl) as [Hle _].
      simpl. split; [lia|]. intros _. lia.
    + destruct (IH (length s) ltac:(simpl; lia) s eq_refl) as [Hle Hlt].
      simpl. split; [lia|]. intros Hs. apply Hlt in Hs. lia.
Qed.

End ReFacts.
Section NormalizerFacts.
Context {U : UnicodeData}.
Import Re ReFacts.

(** *** Characters *)

Lemma is_word_not_space c : is_word c = true -> is_space c = false.
Proof.
  unfold is_word. destruct (N.ltb_spec c 128) as [Hlt|Hge];
    [|apply isalnum_not_space].
  intros Hw. apply not_true_is_false. intros Hs.
  unfold is_space, between in *. lia.
Qed.

Lemma is_space_not_word c : is_space c = true -> is_word c = false.
Proof.
  intros Hs. destruct (is_word c) eqn:Hw; [|done].
  apply is_word_not_space in Hw. congruence.
Qed.

Lemma is_space_not_hyphen c : is_space c = true -> N.eqb hyphen c = false.
Proof.
  intros Hs. destruct (N.eqb_spec hyphen c) as [<-|]; [|done]. done.
Qed.

(** *** The pattern for a hyphen with white space around it *)

Lemma match_spaced_hyphen s :
  match match_here spaced_hyphen s with
  | Some (caps, rest) => Some (tight caps, rest)
  | None => None
  end =
  match spaced_hyphen_at s with
  | Some (c, w, rest) => Some ([c; hyphen; w], rest)
  | None => None
  end.
Proof.
  destruct s as [|c s]; [done|].
  unfold spaced_hyphen, spaced_hyphen_at, gap.
  cbn [match_here qnt cls chr].
  destruct (is_word c); [|done].
  rewrite greedy_longest.
  2:{ intros m d t Hd. by rewrite (is_space_not_hyphen d). }
  destruct (dropw is_space s) as [|h s3]; [done|].
  destruct (N.eqb hyphen h); [|done].
  rewrite greedy_longest.
  2:{ intros m d t Hd. by rewrite (is_space_not_word d). }
  destruct (dropw is_space s3) as [|w rest]; [done|].
  destruct (is_word w); [|done]. done.
Qed.

Lemma spaced_hyphen_at_length s c w rest :
  spaced_hyphen_at s = Some (c, w, rest) -> (length rest + 3 <= length s)%nat.
Proof.
  destruct s as [|d s]; [done|]. unfold spaced_hyphen_at, gap.
  destruct (is_word d); [|done].
  pose proof (length_dropw is_space s).
  destruct (dropw is_space s) as [|h s3]; [done|].
  destruct (N.eqb hyphen h); [|done].
  pose proof (length_dropw is_space s3).
  destruct (dropw is_space s3) as [|w' rest']; [done|].
  destruct (is_word w'); [|done]. intros [= -> -> ->]. simpl in *. lia.
Qed.

Lemma spaced_hyphen_consuming : consuming spaced_hyphen.
Proof.
  intros s caps rest Hm. pose proof (match_spaced_hyphen s) as H.
  rewrite Hm in H. destruct (spaced_hyphen_at s) as [[[c w] rest']|] eqn:Hat;
    [|done].
  injection H as _ ->. apply spaced_hyphen_at_length in Hat. lia.
Qed.

Lemma sub3_cons c s :
  sub3 (c :: s) =
    match spaced_hyphen_at (c :: s) with
    | Some (_, w, rest) => c :: hyphen :: w :: sub3 rest
    | None => c :: sub3 s
    end.
Proof.
  unfold sub3. rewrite sub_cons by apply spaced_hyphen_consuming.
  pose proof (match_spaced_hyphen (c :: s)) as H.
  destruct (match_here spaced_hyphen (c :: s)) as [[caps rest]|];
    destruct (spaced_hyphen_at (c :: s)) as [[[c' w] rest']|] eqn:Hat;
    try done.
  injection H as -> ->. f_equal.
  unfold spaced_hyphen_at in Hat. by repeat case_match; simplify_eq.
Qed.

(** *** The pattern for a run of white space *)

Lemma match_whitespace_run c s :
  match_here whitespace_run (c :: s) =
    if is_space c then Some ([c :: takew is_space s], dropw is_space s)
    else None.
Proof.
  unfold whitespace_run. cbn [match_here qnt cls].
  destruct (is_space c); [|done].
  by rewrite greedy_longest_total by (intros; eexists; reflexivity).
Qed.

Lemma whitespace_run_consuming : consuming whitespace_run.
Proof.
  intros [|c s] caps rest; [done|]. rewrite match_whitespace_run.
  destruct (is_space c); [|done]. intros [= <- <-].
  pose proof (length_dropw is_space s). simpl. lia.
Qed.

Lemma sub4_cons c s :
  sub4 (c :: s) =
    if is_space c then space :: sub4 (dropw is_space s) else c :: sub4 s.
Proof.
  unfold sub4. rewrite sub_cons by apply whitespace_run_consuming.
  rewrite match_whitespace_run. by destruct (is_space c).
Qed.

(** *** The hyphen pass leaves heads and non-word characters alone *)

Lemma sub3_nil : sub3 [] = [].
Proof. done. Qed.

Lemma sub3_not_word c s : is_word c = false -> sub3 (c :: s) = c :: sub3 s.
Proof. intros Hc. rewrite sub3_cons. simpl. by rewrite Hc. Qed.

Lemma sub3_head c s : exists t, sub3 (c :: s) = c :: t.
Proof. rewrite sub3_cons. destruct (spaced_hyphen_at _) as [[[? w] rest]|]; eauto. Qed.

Lemma dropw_sub3 s : dropw is_space (sub3 s) = sub3 (dropw is_space s).
Proof.
  induction s as [|c s IH]; [done|]. simpl.
  destruct (is_space c) eqn:Hc.
  - rewrite sub3_not_word by by apply is_space_not_word. simpl. by rewrite Hc.
  - destruct (sub3_head c s) as [t Ht]. rewrite Ht. simpl. by rewrite Hc.
Qed.

Lemma gap_sub3 s : gap (sub3 s) = sub3 <$> gap s.
Proof.
  unfold gap. rewrite dropw_sub3.
  destruct (dropw is_space s) as [|h s3]; [done|].
  destruct (N.eqb_spec hyphen h) as [<-|Hne].
  - rewrite sub3_not_word by done. rewrite N.eqb_refl. simpl.
    by rewrite dropw_sub3.
  - destruct (sub3_head h s3) as [t ->].
    by destruct (N.eqb_spec hyphen h).
Qed.

Lemma gap_head s w rest : gap s = Some (w :: rest) -> is_space w = false.
Proof.
  unfold gap. destruct (dropw is_space s) as [|h s3]; [done|].
  destruct (N.eqb hyphen h); [|done]. intros [= H]. by apply dropw_head in H.
Qed.

Lemma tight_match c w s :
  is_word c = true -> is_word w = true ->
  spaced_hyphen_at (c :: hyphen :: w :: s) = Some (c, w, s).
Proof.
  intros Hc Hw. unfold spaced_hyphen_at, gap. rewrite Hc. simpl.
  rewrite (is_word_not_space w Hw). by rewrite Hw.
Qed.

Lemma spaced_hyphen_at_Some c s c' w rest :
  spaced_hyphen_at (c :: s) = Some (c', w, rest) ->
  c' = c /\ is_word c = true /\ is_word w = true /\ gap s = Some (w :: rest).
Proof.
  unfold spaced_hyphen_at. destruct (is_word c); [|done].
  destruct (gap s) as [[|w' rest']|]; try done.
  destruct (is_word w') eqn:Hw; [|done]. by intros [= -> -> ->].
Qed.

(** A pass that commutes with [gap] and keeps non-space heads does not
    create a match where there was none. *)
Lemma no_new_match (f : str -> str) c s :
  (forall t, gap (f t) = f <$> gap t) ->
  f [] = [] ->
  (forall d t, is_space d = false -> exists t', f (d :: t) = d :: t') ->
  spaced_hyphen_at (c :: s) = None ->
  spaced_hyphen_at (c :: f s) = None.
Proof.
  intros Hgap Hnil Hhead. unfold spaced_hyphen_at.
  destruct (is_word c); [|done]. rewrite Hgap.
  destruct (gap s) as [[|w rest]|] eqn:Hg; simpl; [by rewrite Hnil| |done].
  destruct (Hhead w rest (gap_head _ _ _ Hg)) as [t' ->].
  by destruct (is_word w).
Qed.

Lemma length_sub3 s : (length (sub3 s) <= length s)%nat.
Proof.
  remember (length s) as n eqn:Hn. revert s Hn.
  induction n as [n IH] using lt_wf_ind. intros [|c s] ->; [done|].
  rewrite sub3_cons.
  destruct (spaced_hyphen_at (c :: s)) as [[[c' w] rest]|] eqn:Hat.
  - apply spaced_hyphen_at_length in Hat. simpl in *.
    pose proof (IH (length rest) ltac:(lia) rest eq_refl). lia.
  - simpl. pose proof (IH (length s) ltac:(simpl; lia) s eq_refl). lia.
Qed.

(** The hyphen pass is idempotent. *)
Lemma sub3_idempotent s : sub3 (sub3 s) = sub3 s.
Proof.
  remember (length s) as n eqn:Hn. revert s Hn.
  induction n as [n IH] using lt_wf_ind. intros [|c s] ->; [done|].
  rewrite sub3_cons.
  destruct (spaced_hyphen_at (c :: s)) as [[[c' w] rest]|] eqn:Hat.
  - pose proof (spaced_hyphen_at_length _ _ _ _ Hat) as Hlen.
    apply spaced_hyphen_at_Some in Hat as (-> & Hc & Hw & _).
    rewrite sub3_cons, tight_match by done.
    do 3 f_equal. apply (IH (length rest)); [simpl in *; lia|done].
  - rewrite sub3_cons.
    rewrite (no_new_match sub3) by (done || apply gap_sub3 || intros; apply sub3_head).
    f_equal. apply (IH (length s)); [simpl; lia|done].
Qed.

(** *** The white-space pass *)

Lemma sub4_nil : sub4 [] = [].
Proof. done. Qed.

Lemma sub4_not_space c s : is_space c = false -> sub4 (c :: s) = c :: sub4 s.
Proof. intros Hc. by rewrite sub4_cons, Hc. Qed.

Lemma dropw_sub4_dropw s :
  dropw is_space (sub4 (dropw is_space s)) = sub4 (dropw is_space s).
Proof.
  destruct (dropw is_space s) as [|d t] eqn:Hd; [done|].
  apply dropw_head in Hd. rewrite sub4_not_space by done. simpl. by rewrite Hd.
Qed.

Lemma dropw_sub4 s : dropw is_space (sub4 s) = sub4 (dropw is_space s).
Proof.
  destruct s as [|c s]; [done|]. rewrite sub4_cons. simpl.
  destruct (is_space c) eqn:Hc; simpl.
  - apply dropw_sub4_dropw.
  - by rewrite Hc, sub4_not_space.
Qed.

Lemma gap_sub4 s : gap (sub4 s) = sub4 <$> gap s.
Proof.
  unfold gap. rewrite dropw_sub4.
  destruct (dropw is_space s) as [|h s3] eqn:Hd; [done|].
  apply dropw_head in Hd. rewrite sub4_not_space by done.
  destruct (N.eqb hyphen h); [|done]. simpl. by rewrite dropw_sub4.
Qed.

(** The white-space pass is idempotent. *)
Lemma sub4_idempotent s : sub4 (sub4 s) = sub4 s.
Proof.
  remember (length s) as n eqn:Hn. revert s Hn.
  induction n as [n IH] using lt_wf_ind. intros [|c s] ->; [done|].
  rewrite sub4_cons. destruct (is_space c) eqn:Hc.
  - rewrite sub4_cons. simpl. f_equal. rewrite dropw_sub4_dropw.
    pose proof (length_dropw is_space s).
    apply (IH (length (dropw is_space s))); [simpl; lia|done].
  - rewrite sub4_not_space by done. f_equal.
    apply (IH (length s)); [simpl; lia|done].
Qed.

(** The white-space pass creates no match for the hyphen pass: it maps
    the fixed points of the hyphen pass to fixed points. *)
Lemma sub3_sub4_fixed s : sub3 s = s -> sub3 (sub4 s) = sub4 s.
Proof.
  remember (length s) as n eqn:Hn. revert s Hn.
  induction n as [n IH] using lt_wf_ind. intros [|c s] -> Hfix; [done|].
  rewrite sub3_cons in Hfix.
  destruct (spaced_hyphen_at (c :: s)) as [[[c' w] rest]|] eqn:Hat.
  - injection Hfix as Hs. subst s.
    apply spaced_hyphen_at_Some in Hat as Hat'. destruct Hat' as (-> & Hc & Hw & _).
    rewrite tight_match in Hat by done. injection Hat as Hrest.
    rewrite !sub4_not_space by (done || by apply is_word_not_space).
    rewrite sub3_cons, tight_match by done. do 3 f_equal.
    apply (IH (length (sub3 rest))); [simpl; lia|done|].
    by rewrite sub3_idempotent.
  - injection Hfix as Hs. rewrite sub4_cons. destruct (is_space c) eqn:Hc.
    + rewrite sub3_not_word by done. f_equal.
      pose proof (length_dropw is_space s).
      apply (IH (length (dropw is_space s))); [simpl; lia|done|].
      by rewrite <- dropw_sub3, Hs.
    + rewrite sub3_cons.
      rewrite (no_new_match sub4); [|apply gap_sub4|done| |done].
      * f_equal. apply (IH (length s)); [simpl; lia|done|done].
      * intros d t Hd. rewrite sub4_not_space by done. eauto.
Qed.

(** *** The passes on a text without noise *)

Lemma strip_unwanted_fixed s : noise_free s = true -> strip_unwanted s = s.
Proof.
  unfold noise_free, strip_unwanted.
  induction unwanted_patterns as [|p ps IH]; [done|]. simpl.
  intros [Hp Hps]%andb_true_iff. apply negb_true_iff in Hp.
  rewrite sub_no_match by done. by apply IH.
Qed.

Lemma search_chr_cons (x c : N) s :
  search [chr x] (c :: s) = if N.eqb x c then true else search [chr x] s.
Proof. cbn [search match_here qnt cls chr]. by destruct (N.eqb x c). Qed.

Lemma noise_free_no_line_feed s : noise_free s = true -> ~ In line_feed s.
Proof.
  unfold noise_free. cbn [unwanted_patterns forallb].
  intros [Hp _]%andb_true_iff.
  apply negb_true_iff in Hp. clear -Hp.
  induction s as [|c s IH]; [by intros []|]. rewrite search_chr_cons in Hp.
  destruct (N.eqb_spec line_feed c) as [->|Hne]; [done|].
  intros [Hc|Hin]; [done|]. by apply IH.
Qed.

Lemma clean_up_text_passes s :
  clean_up_text s =
    sub4 (sub3 (strip_unwanted
                  (sub hyphen_break (fun caps => cap 0 caps ++ cap 3 caps) s))).
Proof. done. Qed.

(** *** A text with noise gets shorter *)

Lemma length_sub4 s : (length (sub4 s) <= length s)%nat.
Proof.
  remember (length s) as n eqn:Hn. revert s Hn.
  induction n as [n IH] using lt_wf_ind. intros [|c s] ->; [done|].
  rewrite sub4_cons. pose proof (length_dropw is_space s).
  destruct (is_space c); simpl.
  - pose proof (IH (length (dropw is_space s)) ltac:(simpl; lia) _ eq_refl). lia.
  - pose proof (IH (length s) ltac:(simpl; lia) _ eq_refl). lia.
Qed.

(** The only white space the last pass leaves is the space character. *)
Lemma sub4_spaces s x : In x (sub4 s) -> is_space x = true -> x = space.
Proof.
  remember (length s) as n eqn:Hn. revert s Hn.
  induction n as [n IH] using lt_wf_ind. intros [|c s] ->; [done|].
  rewrite sub4_cons. pose proof (length_dropw is_space s).
  destruct (is_space c) eqn:Hc; simpl.
  - intros [<-|Hin] Hx; [done|].
    by apply (IH (length (dropw is_space s)) ltac:(simpl; lia) _ eq_refl).
  - intros [<-|Hin] Hx; [congruence|].
    by apply (IH (length s) ltac:(simpl; lia) _ eq_refl).
Qed.

Lemma clean_up_text_no_line_feed s : ~ In line_feed (clean_up_text s).
Proof.
  rewrite clean_up_text_passes. intros Hin.
  by apply sub4_spaces in Hin.
Qed.

Lemma unwanted_patterns_consuming :
  Forall consuming unwanted_patterns.
Proof. repeat constructor; by apply consuming_first_one. Qed.

Lemma length_strip_unwanted s :
  (length (strip_unwanted s) <= length s)%nat /\
  (noise_free s = false -> (length (strip_unwanted s) < length s)%nat).
Proof.
  unfold strip_unwanted, noise_free.
  pose proof unwanted_patterns_consuming as Hps. revert s.
  induction Hps as [|p ps Hp _ IH]; intros s; simpl; [done|].
  destruct (length_sub_delete p s Hp) as [Hle Hlt].
  destruct (IH (sub p (fun _ => []) s)) as [Hle' Hlt'].
  split; [lia|]. destruct (search p s) eqn:Hs; simpl.
  - intros _. specialize (Hlt eq_refl). lia.
  - rewrite sub_no_match in * by done. done.
Qed.

End NormalizerFacts.
(** C6, as the code has it. A second pass of [clean_up_text] changes
    nothing exactly when the first pass left no noise behind, that is,
    when none of the unwanted patterns occurs in [clean_up_text(T)];
    otherwise the second pass makes the text shorter. *)
Theorem clean_up_text_idempotent_without_noise {U : UnicodeData} (T : str) :
  (noise_free (clean_up_text T) = true ->
   clean_up_text (clean_up_text T) = clean_up_text T) /\
  (noise_free (clean_up_text T) = false ->
   (length (clean_up_text (clean_up_text T)) < length (clean_up_text T))%nat).
Proof.
  assert (Hfirst :
    Re.sub hyphen_break (fun caps => Re.cap 0 caps ++ Re.cap 3 caps)
      (clean_up_text T) = clean_up_text T).
  { apply ReFacts.sub_no_match.
    apply (ReFacts.search_without_char _ line_feed).
    - right. right. by left.
    - apply clean_up_text_no_line_feed. }
  split; intros Hnf.
  - rewrite (clean_up_text_passes (clean_up_text T)), Hfirst.
    rewrite strip_unwanted_fixed by done.
    rewrite clean_up_text_passes.
    rewrite sub3_sub4_fixed by apply sub3_idempotent.
    apply sub4_idempotent.
  - rewrite (clean_up_text_passes (clean_up_text T)), Hfirst.
    destruct (length_strip_unwanted (clean_up_text T)) as [_ Hlt].
    specialize (Hlt Hnf).
    pose proof (length_sub3 (strip_unwanted (clean_up_text T))).
    pose proof (length_sub4 (sub3 (strip_unwanted (clean_up_text T)))).
    lia.
Qed.

Lemma clean_up_text_idempotent_without_noise_witness :
  let T := of_string "inter-
national  co - operation " ++ repeat em_dash 5 in
  @clean_up_text ascii_only (@clean_up_text ascii_only T) =
  @clean_up_text ascii_only T.
Proof.
  apply (@clean_up_text_idempotent_without_noise ascii_only).
  vm_compute. reflexivity.
Defined.

Lemma nested_escape_twice (U : UnicodeData) :
  clean_up_text nested_escape = of_string "\u0041" /\
  clean_up_text (of_string "\u0041") = [].
Proof. split; reflexivity. Qed.

(** C6, as stated, fails: stripping one match of a noise pattern can leave
    a new one behind. Whatever the Unicode tables, [clean_up_text] is not
    idempotent at [nested_escape]. *)
Lemma clean_up_text_not_idempotent :
  ~ exists U : UnicodeData,
      clean_up_text (clean_up_text nested_escape) = clean_up_text nested_escape.
Proof.
  intros [U H]. destruct (nested_escape_twice U) as [H1 H2].
  rewrite H1, H2 in H. discriminate H.
Qed.
(** * Further properties *)

(** ** The chunker *)

Section ChunkerMore.

Implicit Types (text : str) (cs ov step s : Z).

Lemma take_step_windows n text s cs step :
  0 < step <= cs -> 0 <= s -> n = count_from (len text) s step ->
  concat (List.map (first_n step) (windows n text s cs step))
    = drop (Z.to_nat s) text.
Proof.
  intros Hstep. revert s.
  induction n as [|n IH]; intros s Hs Hn.
  - destruct (Z.lt_ge_cases s (len text)).
    + rewrite count_from_step in Hn; lia.
    + simpl. rewrite drop_ge; [done|]. unfold len in *. lia.
  - destruct (Z.lt_ge_cases s (len text)) as [Hlt|Hge].
    2:{ rewrite count_from_done in Hn; lia. }
    rewrite count_from_step in Hn by lia. simpl.
    rewrite IH by lia. unfold first_n, window. rewrite take_take.
    replace (Z.to_nat step `min` Z.to_nat cs)%nat with (Z.to_nat step) by lia.
    replace (Z.to_nat (s + step)) with (Z.to_nat s + Z.to_nat step)%nat by lia.
    rewrite <- drop_drop. apply take_drop.
Qed.

(** X1. For a chunk size that is not negative and an overlap below it,
    [chunk_text] returns [ceil(len(text) / (chunk_size - overlap))]
    chunks. *)
Theorem chunk_count text cs ov :
  0 <= cs -> ov < cs ->
  exists r, chunk_text text cs ov = Some r /\
    Z.of_nat (length r) = (len text + (cs - ov) - 1) / (cs - ov).
Proof.
  intros Hcs Hstep. eexists. split; [by apply chunk_text_windows|].
  rewrite length_windows. unfold count_from.
  rewrite Z2Nat.id; [f_equal; lia|].
  apply Z.div_pos; unfold len; lia.
Qed.

Lemma chunk_count_witness :
  exists r, chunk_text (of_string "abcdefghij") 4 1 = Some r /\
    Z.of_nat (length r) = (len (of_string "abcdefghij") + (4 - 1) - 1) / (4 - 1).
Proof. apply (chunk_count (of_string "abcdefghij") 4 1); lia. Defined.

(** X2. For [0 <= overlap < chunk_size], keeping of every chunk its first
    [chunk_size - overlap] characters (the part that the next chunk does
    not repeat) and concatenating gives back the text. *)
Theorem overlap_removed_round_trip text cs ov :
  0 <= ov < cs ->
  exists r, chunk_text text cs ov = Some r /\
    concat (List.map (first_n (cs - ov)) r) = text.
Proof.
  intros Hov. eexists. split; [apply chunk_text_windows; lia|].
  by rewrite take_step_windows by (done || lia).
Qed.

Lemma overlap_removed_round_trip_witness :
  exists r, chunk_text (of_string "abcdefghij") 4 1 = Some r /\
    concat (List.map (first_n (4 - 1)) r) = of_string "abcdefghij".
Proof. apply (overlap_removed_round_trip (of_string "abcdefghij") 4 1). lia. Defined.

(** X3. A text that fits into one chunk ([0 < len(text) <= chunk_size],
    [0 <= overlap < chunk_size]): chunk [i] is the rest of the text from
    position [i * (chunk_size - overlap)] on, so the first chunk is the
    whole text and every further chunk repeats its tail; there is no
    further chunk exactly when [len(text) <= chunk_size - overlap]. *)
Theorem text_within_one_chunk text cs ov :
  0 <= ov < cs -> 0 < len text <= cs ->
  exists r, chunk_text text cs ov = Some r /\
    head r = Some text /\
    (forall (i : nat) c, r !! i = Some c ->
       c = drop (Z.to_nat (start_of cs ov i)) text) /\
    (r = [text] <-> len text <= cs - ov).
Proof.
  intros Hov Hlen.
  assert (Hr := chunk_text_windows text cs ov ltac:(lia) ltac:(lia)).
  eexists. split; [exact Hr|].
  assert (Hall : forall (i : nat) c,
             windows (count_from (len text) 0 (cs - ov)) text 0 cs (cs - ov) !! i
               = Some c ->
             c = drop (Z.to_nat (start_of cs ov i)) text).
  { intros i c Hi.
    destruct (chunk_text_lookup text cs ov _ i c ltac:(lia) ltac:(lia) Hr Hi)
      as [Hlt ->].
    apply window_to_end; unfold start_of in *; nia. }
  rewrite (count_from_step _ 0) in * by lia. simpl in *.
  assert (Hw : window text 0 cs = text).
  { rewrite window_to_end by lia. done. }
  rewrite Hw in Hall |- *. split; [done|]. split; [exact Hall|].
  destruct (Z.le_gt_cases (len text) (cs - ov)) as [Hle|Hgt].
  - rewrite count_from_done by lia. done.
  - rewrite count_from_step by lia. simpl. split; [done|lia].
Qed.

Lemma text_within_one_chunk_witness :
  exists r, chunk_text (of_string "abc") 4 2 = Some r /\
    head r = Some (of_string "abc") /\
    (forall (i : nat) c, r !! i = Some c ->
       c = drop (Z.to_nat (start_of 4 2 i)) (of_string "abc")) /\
    (r = [of_string "abc"] <-> len (of_string "abc") <= 4 - 2).
Proof.
  apply (text_within_one_chunk (of_string "abc") 4 2); [lia|].
  unfold len. simpl. lia.
Defined.

End ChunkerMore.
(** ** The normalizer *)

Section NormalizerMore.
Context {U : UnicodeData}.
Import Re ReFacts.

(** *** Lengths and characters through a scan *)

Lemma match_here_length re s caps rest :
  match_here re s = Some (caps, rest) ->
  length s = (length (concat caps) + length rest)%nat.
Proof.
  intros Hm. apply match_here_sound in Hm as [-> _]. by rewrite length_app.
Qed.

Lemma length_sub_le re repl s :
  consuming re ->
  (forall t caps rest, match_here re t = Some (caps, rest) ->
     (length (repl caps) <= length (concat caps))%nat) ->
  (length (sub re repl s) <= length s)%nat.
Proof.
  intros Hre Hrepl. remember (length s) as n eqn:Hn. revert s Hn.
  induction n as [n IH] using lt_wf_ind. intros [|c s] ->; [done|].
  rewrite sub_cons by done.
  destruct (match_here re (c :: s)) as [[caps rest]|] eqn:Hm.
  - pose proof (Hre _ _ _ Hm). pose proof (Hrepl _ _ _ Hm).
    pose proof (match_here_length _ _ _ _ Hm).
    pose proof (IH (length rest) ltac:(lia) rest eq_refl).
    rewrite length_app. lia.
  - simpl. pose proof (IH (length s) ltac:(simpl; lia) s eq_refl). lia.
Qed.

Lemma in_cap n caps (y : N) : In y (cap n caps) -> In y (concat caps).
Proof.
  unfold cap. revert n. induction caps as [|m caps IH]; intros n.
  - by destruct n.
  - destruct n as [|n]; simpl; intros H; apply in_or_app; [by left|].
    right. by apply (IH n).
Qed.

Lemma length_cap_pair i j caps :
  (i < j)%nat ->
  (length (cap i caps) + length (cap j caps) <= length (concat caps))%nat.
Proof.
  unfold cap. revert i j. induction caps as [|m caps IH]; intros i j Hij.
  - destruct i, j; simpl; lia.
  - destruct j as [|j]; [lia|]. simpl. rewrite length_app.
    destruct i as [|i].
    + assert (length (nth j caps []) <= length (concat caps))%nat; [|lia].
      clear. revert j. induction caps as [|m' caps IH]; intros j.
      * destruct j; simpl; lia.
      * destruct j; simpl; rewrite length_app; [lia|]. specialize (IH j). lia.
    + specialize (IH i j ltac:(lia)). lia.
Qed.

(** The characters of the result of a scan come from the text or from
    the replacement. *)
Lemma in_sub re repl (P : N -> Prop) s x :
  consuming re ->
  (forall t caps rest y, match_here re t = Some (caps, rest) ->
     In y (repl caps) -> In y (concat caps) \/ P y) ->
  In x (sub re repl s) -> In x s \/ P x.
Proof.
  intros Hre Hrepl. remember (length s) as n eqn:Hn. revert s Hn.
  induction n as [n IH] using lt_wf_ind. intros [|c s] ->; [intros H; by left|].
  rewrite sub_cons by done.
  destruct (match_here re (c :: s)) as [[caps rest]|] eqn:Hm.
  - pose proof (Hre _ _ _ Hm) as Hlen. pose proof (Hrepl _ _ _ x Hm) as Hx.
    apply match_here_sound in Hm as [Hs _]. rewrite Hs.
    intros [Hin|Hin]%in_app_or.
    + destruct (Hx Hin) as [H|H]; [left|by right].
      apply in_or_app. by left.
    + destruct (IH (length rest) ltac:(lia) rest eq_refl Hin) as [H|H];
        [left|by right].
      apply in_or_app. by right.
  - intros [<-|Hin]; [left; by left|].
    destruct (IH (length s) ltac:(simpl; lia) s eq_refl Hin) as [H|H];
      [left; by right|by right].
Qed.

(** *** The first pass *)

Lemma hyphen_break_consuming : consuming hyphen_break.
Proof.
  intros s caps rest Hm. pose proof (match_here_length _ _ _ _ Hm) as Hlen.
  apply match_here_sound in Hm as [_ Hcaps].
  inversion Hcaps as [|a m ? caps' [_ Hm0] _]; subst. simpl in *.
  rewrite length_app in Hlen. lia.
Qed.

Lemma length_sub1 s : (length (sub1 s) <= length s)%nat.
Proof.
  apply length_sub_le; [apply hyphen_break_consuming|].
  intros t caps rest _. rewrite length_app. apply length_cap_pair. lia.
Qed.

(** *** White space in the result *)

Lemma sub4_no_double_space s (i : nat) :
  sub4 s !! i = Some space -> sub4 s !! S i <> Some space.
Proof.
  remember (length s) as n eqn:Hn. revert s i Hn.
  induction n as [n IH] using lt_wf_ind. intros [|c s] i ->; [done|].
  rewrite sub4_cons. pose proof (length_dropw is_space s).
  destruct (is_space c) eqn:Hc.
  - destruct i as [|i]; simpl.
    + intros _. destruct (dropw is_space s) as [|d t] eqn:Hd; [done|].
      apply dropw_head in Hd. rewrite sub4_not_space by done. simpl.
      intros [= ->]. done.
    + apply (IH (length (dropw is_space s))); [simpl; lia|done].
  - destruct i as [|i]; simpl.
    + intros [= ->]. done.
    + apply (IH (length s)); [simpl; lia|done].
Qed.

(** X4. Whatever the input, the result of [clean_up_text] holds no
    white-space character other than the space (no line feed, no tab) and
    never two spaces in a row. *)
Theorem clean_up_text_single_spaced (T : str) : single_spaced (clean_up_text T).
Proof.
  rewrite clean_up_text_passes. split.
  - intros x. apply sub4_spaces.
  - intros i. apply sub4_no_double_space.
Qed.

(** X5. [clean_up_text] never returns a text longer than its input. *)
Theorem clean_up_text_never_longer (T : str) :
  (length (clean_up_text T) <= length T)%nat.
Proof.
  rewrite clean_up_text_passes.
  pose proof (length_sub1 T) as H1. unfold sub1 in H1.
  destruct (length_strip_unwanted
              (sub hyphen_break (fun caps => cap 0 caps ++ cap 3 caps) T))
    as [H2 _].
  pose proof (length_sub3
                (strip_unwanted
                   (sub hyphen_break (fun caps => cap 0 caps ++ cap 3 caps) T))).
  pose proof (length_sub4
                (sub3 (strip_unwanted
                         (sub hyphen_break
                            (fun caps => cap 0 caps ++ cap 3 caps) T)))).
  lia.
Qed.

(** *** Texts without hyphen and noise characters *)

Lemma sub_delete_char (x : N) s :
  sub [chr x] (fun _ => []) s = List.filter (fun c => negb (N.eqb x c)) s.
Proof.
  induction s as [|c s IH]; [done|].
  rewrite sub_cons by by apply consuming_first_one.
  cbn [match_here qnt cls chr List.filter].
  destruct (N.eqb x c); simpl; by rewrite IH.
Qed.

Lemma not_in_without_line_feeds (x : N) s :
  ~ In x s -> ~ In x (without_line_feeds s).
Proof. intros Hs Hin. apply filter_In in Hin as [Hin _]. done. Qed.

Lemma is_noise_character_spec (x : N) :
  is_noise_character x = true <-> In x noise_characters.
Proof.
  unfold is_noise_character. rewrite existsb_exists. split.
  - intros (y & Hy & ->%N.eqb_eq). done.
  - intros Hin. exists x. split; [done|apply N.eqb_refl].
Qed.

Lemma no_noise_characters_spec s :
  no_noise_characters s = true <->
  forall x, In x noise_characters -> ~ In x s.
Proof.
  unfold no_noise_characters. rewrite forallb_forall. split.
  - intros H x Hx Hin. specialize (H x Hin).
    apply negb_true_iff in H. apply is_noise_character_spec in Hx. congruence.
  - intros H x Hin. apply negb_true_iff.
    destruct (is_noise_character x) eqn:Hx; [|done].
    apply is_noise_character_spec in Hx. by destruct (H x Hx).
Qed.

(** Of the unwanted patterns only the first, the line feed, can occur in
    a text without noise characters. *)
Lemma strip_unwanted_no_noise_characters s :
  no_noise_characters s = true -> strip_unwanted s = without_line_feeds s.
Proof.
  intros Hs. rewrite no_noise_characters_spec in Hs.
  unfold strip_unwanted. cbn [fold_left unwanted_patterns].
  rewrite (sub_delete_char line_feed s). fold (without_line_feeds s).
  assert (Hno : forall x, In x noise_characters ->
                  ~ In x (without_line_feeds s))
    by (intros x Hx; by apply not_in_without_line_feeds, Hs).
  rewrite (sub_no_match (lit [space; space; em_dash]))
    by (apply (search_without_char _ em_dash);
        [right; right; by left|apply Hno; by left]).
  rewrite (sub_no_match (lit (repeat em_dash 10)))
    by (apply (search_without_char _ em_dash); [by left|apply Hno; by left]).
  rewrite (sub_no_match (lit (repeat em_dash 9)))
    by (apply (search_without_char _ em_dash); [by left|apply Hno; by left]).
  rewrite (sub_no_match (lit (repeat em_dash 5)))
    by (apply (search_without_char _ em_dash); [by left|apply Hno; by left]).
  rewrite (sub_no_match [chr backslash; _; _])
    by (apply (search_without_char _ backslash);
        [by left|apply Hno; right; by left]).
  rewrite (sub_no_match [chr 61557%N])
    by (apply (search_without_char _ 61557%N);
        [by left|apply Hno; right; right; by left]).
  rewrite (sub_no_match [chr 61623%N])
    by (apply (search_without_char _ 61623%N);
        [by left|apply Hno; right; right; right; by left]).
  done.
Qed.

Lemma ordinary_spec s :
  forallb ordinary_character s = true ->
  ~ In hyphen s /\ no_noise_characters s = true.
Proof.
  intros H. rewrite forallb_forall in H. split.
  - intros Hin. specialize (H _ Hin). done.
  - unfold no_noise_characters. apply forallb_forall. intros x Hin.
    specialize (H _ Hin). unfold ordinary_character in H.
    by apply andb_true_iff in H as [_ H].
Qed.

Lemma clean_up_text_ordinary s :
  forallb ordinary_character s = true ->
  clean_up_text s = sub4 (without_line_feeds s).
Proof.
  intros [Hhy Hno]%ordinary_spec. rewrite clean_up_text_passes.
  rewrite (sub_no_match hyphen_break)
    by (apply (search_without_char _ hyphen); [right; by left|done]).
  rewrite strip_unwanted_no_noise_characters by done.
  unfold sub3. rewrite sub_no_match; [done|].
  apply (search_without_char _ hyphen); [right; right; by left|].
  by apply not_in_without_line_feeds.
Qed.

(** X6. On a text that holds no hyphen, no em dash, no backslash and
    neither private-use glyph, [clean_up_text] does two things only: it
    deletes the line feeds, and then it replaces every run of white space
    by one space. *)
Theorem clean_up_text_of_ordinary_text (T : str) :
  forallb ordinary_character T = true ->
  clean_up_text T =
    sub whitespace_run (fun _ => [space]) (without_line_feeds T).
Proof. apply clean_up_text_ordinary. Qed.

Lemma sub4_no_space s :
  forallb (fun c => negb (is_space c)) s = true -> sub4 s = s.
Proof.
  induction s as [|c s IH]; [done|]. simpl.
  intros [Hc Hs]%andb_true_iff. apply negb_true_iff in Hc.
  rewrite sub4_not_space by done. by rewrite IH.
Qed.

Lemma plain_spec s :
  forallb plain_character s = true ->
  forallb ordinary_character s = true /\
  forallb (fun c => negb (is_space c)) s = true.
Proof.
  unfold plain_character. induction s as [|c s IH]; [done|]. simpl.
  intros [[Hc1 Hc2]%andb_true_iff Hs]%andb_true_iff.
  destruct (IH Hs) as [-> ->]. by rewrite Hc1, Hc2.
Qed.

Lemma without_line_feeds_plain s :
  forallb (fun c => negb (is_space c)) s = true -> without_line_feeds s = s.
Proof.
  induction s as [|c s IH]; [done|]. cbn [forallb].
  intros [Hc Hs]%andb_true_iff. apply negb_true_iff in Hc.
  unfold without_line_feeds. cbn [List.filter].
  destruct (N.eqb_spec line_feed c) as [<-|_]; [done|]. cbn [negb].
  fold (without_line_feeds s). by rewrite IH.
Qed.

Lemma clean_up_text_plain s :
  forallb plain_character s = true -> clean_up_text s = s.
Proof.
  intros [Ho Hs]%plain_spec. rewrite clean_up_text_ordinary by done.
  rewrite without_line_feeds_plain by done. by apply sub4_no_space.
Qed.

(** X7. A line feed between two pieces of text is deleted, not turned
    into a space: when neither piece holds white space, a hyphen or a
    noise character, the two are joined into one word. *)
Theorem line_feed_joins_words (u v : str) :
  forallb plain_character u = true -> forallb plain_character v = true ->
  clean_up_text (u ++ [line_feed] ++ v) = u ++ v.
Proof.
  intros Hu Hv.
  destruct (plain_spec _ Hu) as [Hou Hsu], (plain_spec _ Hv) as [Hov Hsv].
  rewrite clean_up_text_ordinary.
  2:{ rewrite !forallb_app, Hou. simpl. by rewrite Hov. }
  unfold without_line_feeds. rewrite !List.filter_app. simpl.
  fold (without_line_feeds u) (without_line_feeds v).
  rewrite !without_line_feeds_plain by done.
  apply sub4_no_space. by rewrite forallb_app, Hsu, Hsv.
Qed.

(** *** A word broken at a line end *)

Lemma takew_app p (m s : str) :
  Forall (fun c => p c = true) m -> takew p (m ++ s) = m ++ takew p s.
Proof.
  induction 1 as [|c m Hc _ IH]; [done|]. simpl. by rewrite Hc, IH.
Qed.

Lemma takew_id p (m : str) : Forall (fun c => p c = true) m -> takew p m = m.
Proof. induction 1 as [|c m Hc _ IH]; [done|]. simpl. by rewrite Hc, IH. Qed.

Lemma dropw_all p (m : str) : Forall (fun c => p c = true) m -> dropw p m = [].
Proof. induction 1 as [|c m Hc _ IH]; [done|]. simpl. by rewrite Hc. Qed.

Lemma word_character_spec (c : N) :
  word_character c = true ->
  is_word c = true /\ plain_character c = true.
Proof.
  unfold word_character, plain_character, ordinary_character.
  intros [Hw Hn]%andb_true_iff. split; [done|].
  rewrite Hn, (is_word_not_space _ Hw).
  destruct (N.eqb_spec c hyphen) as [->|_]; [|done].
  by vm_compute in Hw.
Qed.

Lemma word_characters_spec s :
  forallb word_character s = true ->
  Forall (fun c => is_word c = true) s /\ forallb plain_character s = true.
Proof.
  induction s as [|c s IH]; [by split|]. cbn [forallb].
  intros [Hc Hs]%andb_true_iff.
  destruct (word_character_spec _ Hc) as [Hw Hp], (IH Hs) as [Hws Hps].
  split; [by constructor|]. by rewrite Hp, Hps.
Qed.

(** The first pattern on a word, a hyphen, a line feed and a word. *)
Lemma match_hyphen_break c u d v :
  Forall (fun c => is_word c = true) (c :: u) ->
  Forall (fun c => is_word c = true) (d :: v) ->
  match_here hyphen_break ((c :: u) ++ [hyphen; line_feed] ++ d :: v) =
    Some ([c :: u; [hyphen]; [line_feed]; d :: v], []).
Proof.
  intros Hu Hv. inversion Hu as [|? ? Hc Hu']; subst.
  inversion Hv as [|? ? Hd Hv']; subst.
  unfold hyphen_break. cbn [match_here qnt cls app]. rewrite Hc.
  rewrite greedy_longest.
  2:{ intros m x t Hx. cbn [match_here qnt cls chr].
      destruct (N.eqb_spec hyphen x) as [<-|_]; [|done].
      by vm_compute in Hx. }
  rewrite takew_app, dropw_app by done.
  cbn [takew dropw]. replace (is_word hyphen) with false by by vm_compute.
  cbn [match_here qnt cls chr]. rewrite !N.eqb_refl, Hd.
  rewrite greedy_longest_total by (intros m t; by eexists).
  rewrite takew_id, dropw_all by done. by rewrite app_nil_r.
Qed.

(** X8. A word broken by a hyphen at the end of a line is put together
    again: for two non-empty runs [u], [v] of word characters,
    [clean_up_text] turns [u], hyphen, line feed, [v] into [u ++ v]. *)
Theorem hyphenated_line_break_rejoined (u v : str) :
  forallb word_character u = true -> forallb word_character v = true ->
  u <> [] -> v <> [] ->
  clean_up_text (u ++ [hyphen; line_feed] ++ v) = u ++ v.
Proof.
  intros Hu Hv Hune Hvne.
  destruct (word_characters_spec _ Hu) as [Hwu Hpu].
  destruct (word_characters_spec _ Hv) as [Hwv Hpv].
  destruct u as [|c u]; [done|]. destruct v as [|d v]; [done|].
  assert (Hp : forallb plain_character ((c :: u) ++ d :: v) = true)
    by by rewrite forallb_app, Hpu, Hpv.
  rewrite <- (clean_up_text_plain _ Hp).
  rewrite !clean_up_text_passes. do 3 f_equal.
  rewrite (sub_no_match hyphen_break _ ((c :: u) ++ d :: v)).
  2:{ apply (search_without_char _ hyphen); [right; by left|].
      by apply ordinary_spec, plain_spec. }
  change ((c :: u) ++ [hyphen; line_feed] ++ d :: v)
    with (c :: u ++ [hyphen; line_feed] ++ d :: v).
  rewrite sub_cons by apply hyphen_break_consuming.
  change (c :: u ++ [hyphen; line_feed] ++ d :: v)
    with ((c :: u) ++ [hyphen; line_feed] ++ d :: v).
  rewrite match_hyphen_break by done. by rewrite sub_nil, app_nil_r.
Qed.

(** *** Where the characters of the result come from *)

Lemma in_strip_unwanted x s : In x (strip_unwanted s) -> In x s.
Proof.
  unfold strip_unwanted. pose proof unwanted_patterns_consuming as Hc.
  revert s. induction Hc as [|re res Hre _ IH]; intros s; [done|].
  cbn [fold_left]. intros Hin%IH.
  apply (in_sub _ _ (fun _ => False)) in Hin as [Hin|[]]; [done|done|].
  by intros t caps rest y _ [].
Qed.

Lemma in_clean_up_text x s : In x (clean_up_text s) -> In x s \/ x = space.
Proof.
  rewrite clean_up_text_passes. intros Hin.
  apply (in_sub _ _ (fun y => y = space)) in Hin as [Hin|Hin];
    [|by right|apply whitespace_run_consuming|].
  2:{ intros t caps rest y _ [<-|[]]. by right. }
  left. apply (in_sub _ _ (fun _ => False)) in Hin as [Hin|[]];
    [|apply spaced_hyphen_consuming|].
  2:{ intros t caps rest y Hm Hy. left. unfold tight in Hy.
      apply in_app_or in Hy as [Hy|[[<-|[]]|Hy]%in_app_or].
      - by apply in_cap in Hy.
      - apply match_here_sound in Hm as [_ Hcaps].
        apply (literal_in_captures spaced_hyphen); [right; right; by left|done].
      - by apply in_cap in Hy. }
  apply in_strip_unwanted in Hin.
  apply (in_sub _ _ (fun _ => False)) in Hin as [Hin|[]];
    [done|apply hyphen_break_consuming|].
  intros t caps rest y _ Hy. left.
  apply in_app_or in Hy as [Hy|Hy]; by apply in_cap in Hy.
Qed.

(** X9. [clean_up_text] brings in no character of its own but the space:
    every character of the result is a space or a character of the
    input. *)
Theorem clean_up_text_characters (T : str) :
  incl (clean_up_text T) (space :: T).
Proof.
  intros x [Hin| ->]%in_clean_up_text; [by right|by left].
Qed.

(** *** A second run *)

Lemma without_line_feeds_id s : ~ In line_feed s -> without_line_feeds s = s.
Proof.
  induction s as [|c s IH]; [done|]. intros Hin.
  unfold without_line_feeds. cbn [List.filter].
  destruct (N.eqb_spec line_feed c) as [<-|_]; [destruct Hin; by left|].
  cbn [negb]. fold (without_line_feeds s). rewrite IH; [done|].
  intros H. apply Hin. by right.
Qed.

(** X10. On a text without em dash, backslash and private-use glyph a
    second run of [clean_up_text] changes nothing, whatever hyphens, line
    feeds and white space the text holds. *)
Theorem clean_up_text_idempotent_without_noise_characters (T : str) :
  no_noise_characters T = true ->
  clean_up_text (clean_up_text T) = clean_up_text T.
Proof.
  intros HT. rewrite no_noise_characters_spec in HT.
  assert (Hno : no_noise_characters (clean_up_text T) = true).
  { apply no_noise_characters_spec. intros x Hx [Hin| ->]%in_clean_up_text.
    - by apply (HT x).
    - destruct Hx as [H|[H|[H|[H|[]]]]]; discriminate H. }
  pose proof (clean_up_text_no_line_feed T) as Hlf.
  rewrite (clean_up_text_passes (clean_up_text T)).
  rewrite (sub_no_match hyphen_break)
    by (apply (search_without_char _ line_feed); [right; right; by left|done]).
  rewrite strip_unwanted_no_noise_characters by done.
  rewrite without_line_feeds_id by done.
  rewrite (clean_up_text_passes T).
  rewrite sub3_sub4_fixed by apply sub3_idempotent.
  apply sub4_idempotent.
Qed.

(* MORE *)
End NormalizerMore.

Lemma line_feed_joins_words_witness :
  @clean_up_text ascii_only (of_string "foo" ++ [line_feed] ++ of_string "bar")
    = of_string "foo" ++ of_string "bar".
Proof.
  apply (@line_feed_joins_words ascii_only (of_string "foo") (of_string "bar"));
    vm_compute; reflexivity.
Defined.

Lemma clean_up_text_of_ordinary_text_witness :
  let T := of_string "two  words" ++ [line_feed] ++ of_string "and a"
             ++ [9%N] ++ of_string "tab" in
  @clean_up_text ascii_only T =
    Re.sub whitespace_run (fun _ => [space]) (without_line_feeds T).
Proof.
  apply (@clean_up_text_of_ordinary_text ascii_only).
  vm_compute. reflexivity.
Defined.

Lemma hyphenated_line_break_rejoined_witness :
  @clean_up_text ascii_only
    (of_string "docu" ++ [hyphen; line_feed] ++ of_string "ment")
    = of_string "docu" ++ of_string "ment".
Proof.
  apply (@hyphenated_line_break_rejoined ascii_only
           (of_string "docu") (of_string "ment"));
    vm_compute; (reflexivity || discriminate).
Defined.

Lemma clean_up_text_idempotent_without_noise_characters_witness :
  let T := of_string "well - known" ++ [line_feed] ++ of_string "  terms" in
  @clean_up_text ascii_only (@clean_up_text ascii_only T)
    = @clean_up_text ascii_only T.
Proof.
  apply (@clean_up_text_idempotent_without_noise_characters ascii_only).
  vm_compute. reflexivity.
Defined.

(* WITNESSES *)
(** ** The fetcher *)

Section FetcherMore.
Context {U : UnicodeData} (svc : Services).

Ltac run_step :=
  simpl in *;
  unfold mbind, M_bind, mret, M_ret, bind, ret, raise, hang, print, yield_,
    call_get_file_by_id, call_requests_get, try_except in *; simpl in *.

(** What a call has done when it ends: it made at most [remaining]
    lookups; either it downloaded nothing and returns no text, or it made
    one download, of a URL built from a template and the token, and the
    answer to that download decides how the call ends. *)
Lemma attempts_cases n a file max_retries w r w' :
  attempts svc n a file max_retries w = (r, w') ->
  (lookups w <= lookups w' <= lookups w + n)%nat /\
  ((downloads w' = downloads w /\ forall text, r <> Returns (Some text)) \/
   exists template,
     let u := replace "{+asset_path}" "" template
              +:+ "?access_token=" +:+ token svc in
     downloads w' = downloads w ++ [u] /\
     match requests_get svc (lookups w') (downloads w) u with
     | inl e => r = Raises e
     | inr response =>
         (400 <= status_code response < 600 ->
          exists msg, r = Raises (HTTPError msg)) /\
         (~ 400 <= status_code response < 600 ->
          r = Returns (Some (clean_up_text (text response))))
     end).
Proof.
  revert a file w. induction n as [|n IH]; intros a file w H.
  - run_step. simplify_eq. split; [lia|]. left. by split.
  - simpl in H. run_step.
    destruct (get_file_by_id svc _ _) as [e|file1]; simpl in H.
    { simplify_eq. simpl. split; [lia|]. left. by split. }
    destruct (first_entry file1) as [rep|].
    + unfold visit_representation in H.
      destruct (String.eqb _ _).
      * destruct (url_template rep) as [template|]; run_step.
        2:{ simplify_eq. simpl. split; [lia|]. left. by split. }
        split.
        { destruct (requests_get svc _ _ _) as [e|response]; simpl in H;
            [simplify_eq; simpl; lia|].
          unfold raise_for_status in H.
          repeat case_match; run_step; simplify_eq; simpl; lia. }
        right. exists template. cbn zeta.
        destruct (requests_get svc (S (lookups w)) _ _) as [e|response] eqn:Hget;
          simpl in H.
        { simplify_eq. simpl. split; [done|]. by rewrite Hget. }
        unfold raise_for_status in H.
        destruct ((400 <=? status_code response) && (status_code response <? 500))
          eqn:H4; run_step.
        { simplify_eq. simpl. split; [done|]. rewrite Hget.
          split; [eauto|lia]. }
        destruct ((500 <=? status_code response) && (status_code response <? 600))
          eqn:H5; run_step.
        { simplify_eq. simpl. split; [done|]. rewrite Hget.
          split; [eauto|lia]. }
        simplify_eq. simpl. split; [done|]. rewrite Hget.
        split; [lia|done].
      * run_step. simplify_eq. simpl. split; [lia|]. left. by split.
    + destruct (a =? max_retries - 1).
      { simplify_eq. simpl. split; [lia|]. left. by split. }
      apply IH in H as [Hl Hd]. simpl in *. split; [lia|exact Hd].
Qed.

(** X11. One call of [get_file_text_content] makes at most [max_retries]
    lookups and at most one download, whatever the services answer. *)
Theorem fetch_effort file (max_retries delay : Z) w :
  let w' := snd (get_file_text_content svc file max_retries delay w) in
  (lookups w <= lookups w' <= lookups w + Z.to_nat max_retries)%nat /\
  (downloads w' = downloads w \/ exists u, downloads w' = downloads w ++ [u]).
Proof.
  cbn zeta. destruct (get_file_text_content svc file max_retries delay w)
    as [r w'] eqn:H.
  apply attempts_cases in H as [Hl [[Hd _]|(template & Hd & _)]]; simpl.
  - split; [done|by left].
  - split; [done|]. right. eauto.
Qed.

(** X12. A text comes from one download only: when the call returns a
    text, it has made exactly one download; the URL ends with the access
    token as a query parameter, the answer carried no error status, and
    the text is the normalized body of the answer, so it holds no white
    space but single spaces. *)
Theorem returned_text_is_normalized_download
    file (max_retries delay : Z) w content w' :
  get_file_text_content svc file max_retries delay w = (Returns (Some content), w') ->
  exists prefix response,
    let u := prefix +:+ "?access_token=" +:+ token svc in
    downloads w' = downloads w ++ [u] /\
    requests_get svc (lookups w') (downloads w) u = inr response /\
    ~ 400 <= status_code response < 600 /\
    content = clean_up_text (text response) /\
    single_spaced content.
Proof.
  intros H. apply attempts_cases in H as [_ [[_ Hno]|(template & Hd & Hr)]];
    [by destruct (Hno content)|].
  cbn zeta in *. exists (replace "{+asset_path}" "" template).
  destruct (requests_get svc _ _ _) as [e|response]; [done|].
  destruct Hr as [Herr Hok]. exists response.
  destruct (decide (400 <= status_code response < 600)) as [Hst|Hst].
  { destruct (Herr Hst) as [msg Hmsg]. done. }
  specialize (Hok Hst). simplify_eq.
  split; [done|]. split; [done|]. split; [done|]. split; [done|].
  rewrite clean_up_text_passes. split.
  - intros x. apply sub4_spaces.
  - intros i. apply sub4_no_double_space.
Qed.

(** The attempts that find the list empty, [j] of them in a row. *)
Lemma skip_empty j n a file max_retries w :
  (forall k, (k < j)%nat -> exists file1,
      get_file_by_id svc (lookups w + k) (id file) = inr file1 /\
      first_entry file1 = None /\ id file1 = id file) ->
  a + Z.of_nat j <= max_retries - 1 ->
  exists file_j,
    id file_j = id file /\
    attempts svc (j + n) a file max_retries w =
      attempts svc n (a + Z.of_nat j) file_j max_retries
        {| lookups := (lookups w + j)%nat; downloads := downloads w;
           stdout := stdout w; yielded := yielded w |}.
Proof.
  revert a file w. induction j as [|j IH]; intros a file w Hsrc Ha.
  - exists file. split; [done|]. rewrite Z.add_0_r, Nat.add_0_r. by destruct w.
  - destruct (Hsrc 0%nat ltac:(lia)) as (file1 & Hget & Hnone & Hid).
    rewrite Nat.add_0_r in Hget.
    change (S j + n)%nat with (S (j + n)).
    rewrite (attempt_without_entry _ _ _ _ _ _ file1) by done. cbn zeta.
    destruct (Z.eqb_spec a (max_retries - 1)) as [Heq|_]; [lia|].
    destruct (IH (a + 1) file1
                {| lookups := S (lookups w); downloads := downloads w;
                   stdout := stdout w; yielded := yielded w |})
      as (file_j & Hidj & ->).
    + intros k Hk. destruct (Hsrc (S k) ltac:(lia)) as (f & Hf & Hn & Hi).
      exists f. simpl. rewrite Hid.
      replace (S (lookups w + k)) with (lookups w + S k)%nat by lia.
      split; [done|]. split; [done|]. congruence.
    + lia.
    + exists file_j. split; [congruence|]. simpl.
      f_equal; [lia|f_equal; lia].
Qed.

(** X13. A failed download is not retried: when the lookups of the call
    find the list empty [j] times, the next one lists an [extracted_text]
    entry first, and the download of that entry raises or is answered
    with a status from 400 to 599, the call raises that error after
    [j + 1] lookups and this one download, whatever attempts remain. *)
Theorem failed_download_not_retried
    file (max_retries delay : Z) w (j : nat) file_r rep template :
  Z.of_nat j < max_retries ->
  (forall k, (k < j)%nat -> exists file1,
      get_file_by_id svc (lookups w + k) (id file) = inr file1 /\
      first_entry file1 = None /\ id file1 = id file) ->
  get_file_by_id svc (lookups w + j) (id file) = inr file_r ->
  first_entry file_r = Some rep ->
  representation rep = "extracted_text" ->
  url_template rep = Some template ->
  (forall e,
      requests_get svc (lookups w + j + 1) (downloads w)
        (replace "{+asset_path}" "" template +:+ "?access_token=" +:+ token svc)
        = inl e ->
      get_file_text_content svc file max_retries delay w =
        (Raises e,
         {| lookups := (lookups w + j + 1)%nat;
            downloads :=
              downloads w ++ [replace "{+asset_path}" "" template
                              +:+ "?access_token=" +:+ token svc];
            stdout := stdout w; yielded := yielded w |})) /\
  (forall response,
      requests_get svc (lookups w + j + 1) (downloads w)
        (replace "{+asset_path}" "" template +:+ "?access_token=" +:+ token svc)
        = inr response ->
      400 <= status_code response < 600 ->
      get_file_text_content svc file max_retries delay w =
        (Raises (HTTPError
                   (pretty (status_code response)
                    +:+ (if status_code response <? 500
                         then " Client Error: " else " Server Error: ")
                    +:+ reason response +:+ " for url: " +:+ url response)),
         {| lookups := (lookups w + j + 1)%nat;
            downloads :=
              downloads w ++ [replace "{+asset_path}" "" template
                              +:+ "?access_token=" +:+ token svc];
            stdout := stdout w; yielded := yielded w |})).
Proof.
  intros Hj Hsrc Hget Hrep Hkind Hurl. unfold get_file_text_content.
  replace (Z.to_nat max_retries) with (j + S (Z.to_nat max_retries - j - 1))%nat
    by lia.
  destruct (skip_empty j (S (Z.to_nat max_retries - j - 1)) 0 file max_retries w)
    as (file_j & Hid & ->); [done|lia|].
  rewrite <- Hid in Hget.
  rewrite (attempt_with_entry svc _ _ file_j max_retries _ file_r rep)
    by done.
  unfold visit_representation. rewrite Hkind, Hurl. run_step.
  replace (S (lookups w + j)) with (lookups w + j + 1)%nat by lia.
  split.
  - intros e ->. done.
  - intros response -> Hst. simpl. unfold raise_for_status.
    destruct (Z.ltb_spec (status_code response) 500) as [Hlt|Hge].
    + replace ((400 <=? status_code response) && true) with true by lia.
      done.
    + replace ((400 <=? status_code response) && false) with false by lia.
      replace ((500 <=? status_code response) && (status_code response <? 600))
        with true by lia.
      done.
Qed.

(** X14. A failed lookup is not retried either: when the lookups of the
    call find the list empty [j] times and the next one raises [e], with
    attempts still left, the call raises [e] after [j + 1] lookups and
    without a download. *)
Theorem failed_lookup_not_retried file (max_retries delay : Z) w (j : nat) e :
  Z.of_nat j < max_retries ->
  (forall k, (k < j)%nat -> exists file1,
      get_file_by_id svc (lookups w + k) (id file) = inr file1 /\
      first_entry file1 = None /\ id file1 = id file) ->
  get_file_by_id svc (lookups w + j) (id file) = inl e ->
  get_file_text_content svc file max_retries delay w =
    (Raises e,
     {| lookups := (lookups w + j + 1)%nat; downloads := downloads w;
        stdout := stdout w; yielded := yielded w |}).
Proof.
  intros Hj Hsrc Hget. unfold get_file_text_content.
  replace (Z.to_nat max_retries) with (j + S (Z.to_nat max_retries - j - 1))%nat
    by lia.
  destruct (skip_empty j (S (Z.to_nat max_retries - j - 1)) 0 file max_retries w)
    as (file_j & Hid & ->); [done|lia|].
  simpl. run_step. rewrite Hid, Hget. simpl. do 2 f_equal. lia.
Qed.

End FetcherMore.

Lemma returned_text_is_normalized_download_witness :
  exists prefix response,
    let u := prefix +:+ "?access_token=" +:+ "TOKEN" in
    [Scenario.download_url "7"] = [] ++ [u] /\
    requests_get (Scenario.empty_then_ready 4 (of_string "Hello  world"))
      5 [] u = inr response /\
    ~ 400 <= status_code response < 600 /\
    @clean_up_text ascii_only (of_string "Hello  world")
      = @clean_up_text ascii_only (text response) /\
    single_spaced (@clean_up_text ascii_only (of_string "Hello  world")).
Proof.
  apply (@returned_text_is_normalized_download ascii_only
           (Scenario.empty_then_ready 4 (of_string "Hello  world"))
           (Scenario.doc "7") 5 5 world0
           (@clean_up_text ascii_only (of_string "Hello  world"))
           {| lookups := 5; downloads := [Scenario.download_url "7"];
              stdout := []; yielded := [] |}).
  vm_compute. reflexivity.
Defined.

(** The download is answered with status 503. *)
Lemma failed_download_not_retried_witness :
  let svc :=
    {| get_file_by_id k file_id :=
         inr (Scenario.with_entries (Scenario.doc file_id)
                [Scenario.text_rep file_id "success"]);
       requests_get k urls u :=
         inr {| status_code := 503; reason := "Service Unavailable";
                url := u; text := [] |};
       token := "TOKEN" |} in
  @get_file_text_content ascii_only svc (Scenario.doc "7") 5 5 world0 =
    (Raises (HTTPError
               ("503 Server Error: Service Unavailable for url: "
                +:+ Scenario.download_url "7")),
     {| lookups := 1; downloads := [Scenario.download_url "7"];
        stdout := []; yielded := [] |}).
Proof.
  cbn zeta.
  destruct (@failed_download_not_retried ascii_only
              {| get_file_by_id k file_id :=
                   inr (Scenario.with_entries (Scenario.doc file_id)
                          [Scenario.text_rep file_id "success"]);
                 requests_get k urls u :=
                   inr {| status_code := 503; reason := "Service Unavailable";
                          url := u; text := [] |};
                 token := "TOKEN" |}
              (Scenario.doc "7") 5 5 world0 0%nat
              (Scenario.with_entries (Scenario.doc "7")
                 [Scenario.text_rep "7" "success"])
              (Scenario.text_rep "7" "success")
              "https://dl.boxcloud.com/api/2.0/internal_files/7/versions/1/representations/extracted_text/content/{+asset_path}")
    as [_ Hstatus];
    [lia|intros k Hk; lia|reflexivity|reflexivity|reflexivity|reflexivity|].
  apply (Hstatus {| status_code := 503; reason := "Service Unavailable";
                    url := Scenario.download_url "7"; text := [] |});
    [reflexivity|simpl; lia].
Defined.

(** The list is empty twice, then the lookup fails. *)
Lemma failed_lookup_not_retried_witness :
  let svc :=
    {| get_file_by_id k file_id :=
         if (k <? 2)%nat
         then inr (Scenario.with_entries (Scenario.doc file_id) [])
         else inl (ServiceError "404 Not Found");
       requests_get k urls u := inr (Scenario.ok u []);
       token := "TOKEN" |} in
  @get_file_text_content ascii_only svc (Scenario.doc "7") 5 5 world0 =
    (Raises (ServiceError "404 Not Found"),
     {| lookups := 3; downloads := []; stdout := []; yielded := [] |}).
Proof.
  cbn zeta.
  apply (@failed_lookup_not_retried ascii_only _ (Scenario.doc "7") 5 5 world0
           2%nat (ServiceError "404 Not Found")).
  - lia.
  - intros k Hk. exists (Scenario.with_entries (Scenario.doc "7") []).
    simpl. destruct (Nat.ltb_spec k 2) as [_|Hge]; [by repeat split|lia].
  - reflexivity.
Defined.
(** ** The pipeline *)

Section PipelineMore.
Context {U : UnicodeData} (svc : Services).

Ltac run_step :=
  simpl in *;
  unfold mbind, M_bind, mret, M_ret, bind, ret, raise, hang, print, yield_,
    call_get_file_by_id, call_requests_get, try_except in *; simpl in *.

(** A chunk is a non-empty piece of the text, at most [chunk_size] long. *)
Lemma chunk_is_piece text cs ov r c :
  0 < cs -> ov < cs -> chunk_text text cs ov = Some r -> In c r ->
  1 <= len c <= cs /\ forall x, In x c -> In x text.
Proof.
  intros Hcs Hov Hr Hin. apply list_elem_of_In, list_elem_of_lookup in Hin
    as [i Hi].
  destruct (chunk_text_lookup text cs ov r i c ltac:(lia) Hov Hr Hi)
    as [Hstart ->].
  assert (0 <= start_of cs ov i) by (unfold start_of; nia).
  split.
  - rewrite length_window by lia. lia.
  - intros x Hx. apply list_elem_of_In, list_elem_of_lookup in Hx as [j Hj].
    pose proof (lookup_lt_Some _ _ _ Hj) as Hlt.
    rewrite lookup_window in Hj by done.
    apply list_elem_of_In, list_elem_of_lookup. eauto.
Qed.

(** The lookups and downloads of the loop body are those of its fetch. *)
Lemma process_file_world file w :
  lookups (snd (process_file svc file w))
    = lookups (snd (get_file_text_content svc file 5 5 w)) /\
  downloads (snd (process_file svc file w))
    = downloads (snd (get_file_text_content svc file 5 5 w)).
Proof.
  unfold process_file. run_step.
  destruct (get_file_text_content svc file 5 5 w) as [[[text|]|e|] w1];
    simpl; [|done..].
  rewrite chunk_text_windows by lia. run_step.
  by rewrite yield_chunks_spec.
Qed.

Lemma process_file_effort file w :
  (lookups (snd (process_file svc file w)) <= lookups w + 5)%nat /\
  (length (downloads (snd (process_file svc file w)))
     <= length (downloads w) + 1)%nat.
Proof.
  destruct (process_file_world file w) as [-> ->].
  destruct (get_file_text_content svc file 5 5 w) as [r w1] eqn:H.
  apply attempts_cases in H as [Hl [[Hd _]|(template & Hd & _)]]; simpl;
    rewrite Hd.
  - change (Z.to_nat 5) with 5%nat in Hl. lia.
  - change (Z.to_nat 5) with 5%nat in Hl. rewrite length_app. simpl. lia.
Qed.

(** X15. A run over [n] documents makes at most [5 n] lookups and at
    most [n] downloads. *)
Theorem run_effort files w :
  let w' := snd (extract_text_and_generate_embeddings svc files w) in
  (lookups w' <= lookups w + 5 * length files)%nat /\
  (length (downloads w') <= length (downloads w) + length files)%nat.
Proof.
  cbn zeta. revert w. induction files as [|file rest IH]; intros w.
  - simpl. lia.
  - cbn [extract_text_and_generate_embeddings].
    destruct (process_file_spec svc file w) as (w1 & Hrun & _).
    pose proof (process_file_effort file w) as [Hl Hd].
    rewrite Hrun in Hl, Hd. simpl in Hl, Hd.
    unfold mbind, M_bind, bind. rewrite Hrun.
    destruct (IH w1) as [Hl' Hd']. cbn [length]. lia.
Qed.

Lemma fetch_outcomes_origin files w d :
  In d (fetch_outcomes svc files w) ->
  In (fst d) files /\
  exists w0, snd d = fst (get_file_text_content svc (fst d) 5 5 w0).
Proof.
  revert w. induction files as [|file rest IH]; intros w; [done|].
  simpl. intros [<-|Hin].
  - split; [by left|]. by exists w.
  - destruct (IH _ Hin) as [Hf Hw]. split; [by right|done].
Qed.

Lemma fetched_text_spaces file w0 content :
  fst (get_file_text_content svc file 5 5 w0) = Returns (Some content) ->
  forall x, In x content -> is_space x = true -> x = space.
Proof.
  destruct (get_file_text_content svc file 5 5 w0) as [r w1] eqn:H. simpl.
  intros ->.
  apply attempts_cases in H as [_ [[_ Hno]|(template & _ & Hr)]];
    [by destruct (Hno content)|].
  cbn zeta in Hr. destruct (requests_get svc _ _ _) as [e|response]; [done|].
  destruct Hr as [Herr Hok].
  destruct (decide (400 <= status_code response < 600)) as [Hst|Hst].
  { by destruct (Herr Hst). }
  specialize (Hok Hst). simplify_eq.
  intros x. rewrite clean_up_text_passes. apply sub4_spaces.
Qed.

(** X16. Every record a run yields belongs to one of the documents
    passed in, from which it has its id, name and date; its index is not
    negative; its content has between 1 and 4000 characters and no white
    space but the space. *)
Theorem yielded_records_well_formed files w :
  exists new,
    yielded (snd (extract_text_and_generate_embeddings svc files w))
      = yielded w ++ new /\
    Forall (fun r =>
      (exists file, In file files /\ file_id r = id file /\
                    file_name r = name file /\ created_date r = created_at file) /\
      0 <= chunk_index r /\
      1 <= len (content r) <= 4000 /\
      (forall x, In x (content r) -> is_space x = true -> x = space)) new.
Proof.
  destruct (extract_spec svc files w) as (w' & Hrun & Hy & _).
  rewrite Hrun. simpl.
  exists (flat_map records_of (fetch_outcomes svc files w)).
  split; [done|]. apply List.Forall_forall.
  intros r (d & Hd & Hr)%in_flat_map.
  destruct (fetch_outcomes_origin _ _ _ Hd) as [Hfile [w0 Hw0]].
  destruct d as [file o]. simpl in Hfile, Hw0. subst o.
  unfold records_of in Hr.
  destruct (fst (get_file_text_content svc file 5 5 w0))
    as [[fetched|]|e|] eqn:Hfetch; [|done..].
  destruct (chunk_text fetched 4000 200) as [chunks|] eqn:Hchunks; [|done].
  unfold records_from in Hr.
  apply list_elem_of_In, elem_of_lookup_imap in Hr as (k & chunk & -> & Hk).
  cbn [file_id file_name created_date chunk_index content].
  assert (Hin : In chunk chunks)
    by (apply list_elem_of_In, list_elem_of_lookup; eauto).
  destruct (chunk_is_piece fetched 4000 200 chunks chunk) as [Hlen Hsub];
    [lia|lia|done|done|].
  split; [by exists file|]. split; [lia|]. split; [done|].
  intros x Hx. apply (fetched_text_spaces file w0 fetched Hfetch).
  by apply Hsub.
Qed.

(** X17. A document whose text was fetched contributes one record for
    every 3800 characters of the text, the last one for what is left:
    [(len + 3799) / 3800] records, the [i]-th with index [i] and the 4000
    characters from position [3800 i] on; no failure line is printed.
    A document whose text is empty contributes no record and no line. *)
Theorem records_per_document file w fetched :
  fst (get_file_text_content svc file 5 5 w) = Returns (Some fetched) ->
  exists new,
    yielded (snd (process_file svc file w)) = yielded w ++ new /\
    failure_lines (stdout (snd (process_file svc file w)))
      = failure_lines (stdout w) /\
    Z.of_nat (length new) = (len fetched + 3799) / 3800 /\
    forall (i : nat), (i < length new)%nat ->
      new !! i =
        Some {| file_id := id file; file_name := name file;
                chunk_index := Z.of_nat i;
                content := window fetched (3800 * Z.of_nat i) 4000;
                created_date := created_at file |}.
Proof.
  intros Hfetch.
  destruct (process_file_spec svc file w) as (w' & Hrun & Hy & Hout).
  rewrite Hrun. simpl. cbn zeta in Hy, Hout. rewrite Hfetch in Hy, Hout.
  unfold records_of in Hy. unfold failure_of in Hout.
  rewrite chunk_text_windows in Hy by lia.
  rewrite app_nil_r in Hout.
  eexists. split; [exact Hy|]. split; [exact Hout|].
  unfold records_from. rewrite length_imap, length_windows.
  split.
  - unfold count_from.
    replace (len fetched - 0 + (4000 - 200) - 1) with (len fetched + 3799)
      by lia.
    change (4000 - 200) with 3800. apply Z2Nat.id.
    apply Z.div_pos; unfold len; lia.
  - intros i Hi. rewrite list_lookup_imap, lookup_windows by done.
    simpl. do 2 f_equal. f_equal. lia.
Qed.

End PipelineMore.

(** The representation is listed as pending: the download is answered
    with 202 and no body, and the document leaves no trace. *)
Lemma records_per_document_witness :
  let svc := Scenario.pending_then_ready 4 (of_string "Hello  world") in
  exists new,
    yielded (snd (@process_file ascii_only svc (Scenario.doc "7") world0))
      = [] ++ new /\
    failure_lines
      (stdout (snd (@process_file ascii_only svc (Scenario.doc "7") world0)))
      = [] /\
    Z.of_nat (length new) = (len ([] : str) + 3799) / 3800 /\
    forall (i : nat), (i < length new)%nat ->
      new !! i =
        Some {| file_id := "7"; file_name := "doc7.pdf";
                chunk_index := Z.of_nat i;
                content := window ([] : str) (3800 * Z.of_nat i) 4000;
                created_date := "2024-05-01T09:00:00-07:00" |}.
Proof.
  cbn zeta.
  apply (@records_per_document ascii_only
           (Scenario.pending_then_ready 4 (of_string "Hello  world"))
           (Scenario.doc "7") world0 []).
  vm_compute. reflexivity.
Defined.
(** ** The folder listing *)

Section EndsWith.

Lemma substring_all (x : string) : String.substring 0 (String.length x) x = x.
Proof. induction x as [|c x IH]; [done|]. simpl. by rewrite IH. Qed.

Lemma substring_append (p x : string) :
  String.substring (String.length p) (String.length x) (p +:+ x) = x.
Proof. induction p as [|c p IH]; [apply substring_all|done]. Qed.

Lemma length_append (p x : string) :
  String.length (p +:+ x) = (String.length p + String.length x)%nat.
Proof. induction p as [|c p IH]; [done|]. simpl. by rewrite IH. Qed.

Lemma substring_split (s : string) (k : nat) :
  (k <= String.length s)%nat ->
  s = String.substring 0 k s +:+ String.substring k (String.length s - k) s.
Proof.
  revert k. induction s as [|c s IH]; intros k Hk.
  - by destruct k.
  - destruct k as [|k]; simpl.
    + by rewrite substring_all.
    + change (String c s =
              String c (String.substring 0 k s
                        +:+ String.substring k (String.length s - k) s)).
      f_equal. apply IH. simpl in Hk. lia.
Qed.

(** [endswith] holds of the strings that are a prefix followed by the
    suffix. *)
Lemma endswith_spec (s x : string) :
  endswith s x = true <-> exists p, s = p +:+ x.
Proof.
  unfold endswith. rewrite andb_true_iff, Nat.leb_le, String.eqb_eq. split.
  - intros [Hle Heq].
    exists (String.substring 0 (String.length s - String.length x) s).
    pose proof (substring_split s (String.length s - String.length x)
                  ltac:(lia)) as Hs.
    replace (String.length s - (String.length s - String.length x))%nat
      with (String.length x) in Hs by lia.
    by rewrite Heq in Hs.
  - intros [p ->]. rewrite length_append. split; [lia|].
    replace (String.length p + String.length x - String.length x)%nat
      with (String.length p) by lia.
    apply substring_append.
Qed.

Lemma has_lower_case_append (p x : string) :
  has_lower_case (p +:+ x) = has_lower_case p || has_lower_case x.
Proof.
  induction p as [|c p IH]; [done|]. simpl. by rewrite IH, orb_assoc.
Qed.

(** X18. A name is supported exactly when it is made of any prefix, the
    empty one too, and one of the fourteen listed endings: nothing but
    the end of the name counts. *)
Theorem supported_by_ending (file_name : string) :
  is_supported_file_type file_name = true <->
  exists prefix ext,
    In ext SUPPORTED_TEXT_FILE_TYPES /\ file_name = prefix +:+ ext.
Proof.
  unfold is_supported_file_type. rewrite existsb_exists. split.
  - intros (ext & Hin & [p ->]%endswith_spec). eauto.
  - intros (p & ext & Hin & ->). exists ext. split; [done|].
    apply endswith_spec. eauto.
Qed.

(** X19. The test is case-sensitive: a name without a lower-case letter,
    [REPORT.PDF] for one, is never supported. *)
Theorem upper_case_name_not_supported (file_name : string) :
  has_lower_case file_name = false ->
  is_supported_file_type file_name = false.
Proof.
  intros Hno. destruct (is_supported_file_type file_name) eqn:Hs; [|done].
  unfold is_supported_file_type in Hs. apply existsb_exists in Hs
    as (ext & Hin & [p ->]%endswith_spec).
  rewrite has_lower_case_append in Hno. apply orb_false_iff in Hno as [_ Hno].
  unfold SUPPORTED_TEXT_FILE_TYPES in Hin. simpl in Hin.
  repeat (destruct Hin as [<-|Hin]; [by vm_compute in Hno|]). done.
Qed.

End EndsWith.

Section ListingFacts.
Context (client : Client).

Ltac run_step :=
  simpl in *;
  unfold mbind, M_bind, mret, M_ret, bind, ret, raise, hang,
    call_get_folder_items, call_files_get_file_by_id in *; simpl in *.

(** The loop, when every lookup it makes succeeds. *)
Lemma collect_returns entries acc w files w' :
  collect client entries acc w = (Returns files, w') ->
  exists new,
    files = acc ++ new /\
    length new = length (List.filter selected entries) /\
    w' = {| lookups := (lookups w + length new)%nat; downloads := downloads w;
            stdout := stdout w; yielded := yielded w |} /\
    forall (i : nat) item,
      List.filter selected entries !! i = Some item ->
      exists file,
        new !! i = Some file /\
        files_get_file_by_id client (lookups w + i) (item_id item) = inr file.
Proof.
  revert acc w. induction entries as [|item rest IH]; intros acc w H.
  - run_step. injection H as <- <-. exists []. rewrite app_nil_r, Nat.add_0_r.
    split; [done|]. split; [done|]. split; [by destruct w|]. done.
  - cbn [collect List.filter] in *. destruct (selected item).
    + run_step.
      destruct (files_get_file_by_id client (lookups w) (item_id item))
        as [e|file] eqn:Hget; simpl in H; [done|].
      apply IH in H as (new & -> & Hlen & -> & Hall). simpl in *.
      exists (file :: new). rewrite <- app_assoc. simpl.
      split; [done|]. split; [by rewrite Hlen|].
      split; [f_equal; lia|].
      intros [|i] it Hit; simpl in *.
      * simplify_eq. exists file. by rewrite Nat.add_0_r.
      * destruct (Hall i it Hit) as (f & Hf & Hg). exists f.
        split; [done|]. by replace (lookups w + S i)%nat
                             with (S (lookups w + i)) by lia.
    + by apply IH.
Qed.

(** The loop, when one of its lookups fails. *)
Lemma collect_raises entries acc w (i : nat) item e :
  List.filter selected entries !! i = Some item ->
  files_get_file_by_id client (lookups w + i) (item_id item) = inl e ->
  (forall (j : nat) item_j,
      (j < i)%nat -> List.filter selected entries !! j = Some item_j ->
      exists file,
        files_get_file_by_id client (lookups w + j) (item_id item_j) = inr file) ->
  collect client entries acc w =
    (Raises e,
     {| lookups := (lookups w + i + 1)%nat; downloads := downloads w;
        stdout := stdout w; yielded := yielded w |}).
Proof.
  revert acc w i. induction entries as [|it rest IH]; intros acc w i Hi He Hbefore;
    [done|].
  cbn [collect List.filter] in *. destruct (selected it).
  - run_step. destruct i as [|i]; simpl in Hi.
    + simplify_eq. rewrite Nat.add_0_r in He. rewrite He. simpl.
      do 2 f_equal. lia.
    + destruct (Hbefore 0%nat it ltac:(lia) eq_refl) as [file Hfile].
      rewrite Nat.add_0_r in Hfile. rewrite Hfile. simpl.
      rewrite (IH _ _ i); simpl.
      * do 2 f_equal. lia.
      * done.
      * by replace (S (lookups w + i)) with (lookups w + S i)%nat by lia.
      * intros j item_j Hj Hitem.
        destruct (Hbefore (S j) item_j ltac:(lia) Hitem) as [f Hf].
        exists f. by replace (S (lookups w + j)) with (lookups w + S j)%nat
                       by lia.
  - by apply IH.
Qed.

(** X20. What [get_files_in_folder] returns: one file object for each
    entry of the folder that is a file with a supported name, in the order
    of the folder, each the answer of its own lookup; entries of another
    type or with another ending cost no lookup. *)
Theorem listing_result folder_id w files w' :
  get_files_in_folder client folder_id w = (Returns files, w') ->
  exists entries,
    folders_get_folder_items client folder_id = inr (Some entries) /\
    length files = length (List.filter selected entries) /\
    lookups w' = (lookups w + length files)%nat /\
    forall (i : nat) item,
      List.filter selected entries !! i = Some item ->
      exists file,
        files !! i = Some file /\
        files_get_file_by_id client (lookups w + i) (item_id item) = inr file.
Proof.
  unfold get_files_in_folder. run_step.
  destruct (folders_get_folder_items client folder_id) as [e|[entries|]];
    simpl; [done| |done].
  intros (new & -> & Hlen & -> & Hall)%collect_returns.
  exists entries. simpl. done.
Qed.

(** X21. The listing is all or nothing: when the lookup of one selected
    entry fails, the call raises that error at once, and the files looked
    up before it are lost. *)
Theorem listing_aborts_on_first_failure folder_id w entries (i : nat) item e :
  folders_get_folder_items client folder_id = inr (Some entries) ->
  List.filter selected entries !! i = Some item ->
  files_get_file_by_id client (lookups w + i) (item_id item) = inl e ->
  (forall (j : nat) item_j,
      (j < i)%nat -> List.filter selected entries !! j = Some item_j ->
      exists file,
        files_get_file_by_id client (lookups w + j) (item_id item_j) = inr file) ->
  get_files_in_folder client folder_id w =
    (Raises e,
     {| lookups := (lookups w + i + 1)%nat; downloads := downloads w;
        stdout := stdout w; yielded := yielded w |}).
Proof.
  intros Hitems Hi He Hbefore. unfold get_files_in_folder. run_step.
  rewrite Hitems. simpl. by apply (collect_raises _ _ _ i item).
Qed.

End ListingFacts.

Lemma upper_case_name_not_supported_witness :
  is_supported_file_type "REPORT.PDF" = false.
Proof. apply upper_case_name_not_supported. reflexivity. Defined.

Lemma listing_aborts_on_first_failure_witness :
  get_files_in_folder example_client "0" world0 =
    (Raises (ServiceError "404 Not Found"),
     {| lookups := 2; downloads := []; stdout := []; yielded := [] |}).
Proof.
  apply (listing_aborts_on_first_failure example_client "0" world0
           [ {| item_type := "folder"; item_name := "old.pdf"; item_id := "10" |};
             {| item_type := "file"; item_name := "a.pdf"; item_id := "11" |};
             {| item_type := "file"; item_name := "b.png"; item_id := "12" |};
             {| item_type := "file"; item_name := "c.txt"; item_id := "13" |} ]
           1%nat
           {| item_type := "file"; item_name := "c.txt"; item_id := "13" |}
           (ServiceError "404 Not Found")).
  - reflexivity.
  - reflexivity.
  - reflexivity.
  - intros [|j] item_j Hj Hitem; [|lia].
    exists (Scenario.doc "11"). vm_compute in Hitem.
    injection Hitem as <-. reflexivity.
Defined.

Lemma listing_result_witness :
  let client :=
    {| folders_get_folder_items := fun _ =>
         inr (Some [ {| item_type := "folder"; item_name := "old.pdf"; item_id := "10" |};
                     {| item_type := "file"; item_name := "a.pdf"; item_id := "11" |};
                     {| item_type := "file"; item_name := "b.png"; item_id := "12" |} ]);
       files_get_file_by_id := fun _ file_id => inr (Scenario.doc file_id) |} in
  exists entries,
    folders_get_folder_items client "0" = inr (Some entries) /\
    length [Scenario.doc "11"] = length (List.filter selected entries) /\
    1%nat = (0 + length [Scenario.doc "11"])%nat /\
    forall (i : nat) item,
      List.filter selected entries !! i = Some item ->
      exists file,
        [Scenario.doc "11"] !! i = Some file /\
        files_get_file_by_id client (0 + i) (item_id item) = inr file.
Proof.
  cbn zeta.
  apply (listing_result _ "0" world0 [Scenario.doc "11"]
           {| lookups := 1; downloads := []; stdout := []; yielded := [] |}).
  vm_compute. reflexivity.
Defined.
